(** * Adaptive interview core: level tracker, answer scorer, proctoring
    penalty and final evaluation.

    Shallow embedding of [backend/interview_manager.py],
    [backend/scoring_service.py] and [backend/llm_runner.py].

    Conventions of the embedding:
    - Python [int] is [Z]; a Python [float] is the rational value of the
      IEEE 754 double, and each float operation rounds its exact result to
      the nearest double ([fl], round half to even), as CPython does;
    - Python [str] is [string] over ASCII characters;
    - a Python [dict] of counters is a [gmap string Z], [d.get(k, 0)] is
      [get0 d k], and an optional argument [dict = None] is [option];
    - the result of an external collaborator call is an [outcome]: it either
      returned a value or raised. *)

From Stdlib Require Import ZArith QArith Qround Qpower Qabs Lqa Lia Ascii String List.
From stdpp Require Import base gmap strings.
Import ListNotations.

Open Scope Z_scope.

(* ------------------------------------------------------------------ *)
(** ** Levels and the level tracker of [InterviewManager] *)

Inductive level := easy | medium | hard.

Definition level_eqb (a b : level) : bool :=
  match a, b with
  | easy, easy | medium, medium | hard, hard => true
  | _, _ => false
  end.

(** The fields of [InterviewManager] that [determine_next_level] and
    [_change_level] read and write. *)
Record tracker := mk_tracker {
  current_level : level;
  level_questions_asked : Z;
  consecutive_correct : Z;
  consecutive_incorrect : Z;
  level_progression : list level
}.

(** [__init__]: level tracking fields. *)
Definition init_tracker : tracker :=
  {| current_level := easy;
     level_questions_asked := 0;
     consecutive_correct := 0;
     consecutive_incorrect := 0;
     level_progression := [easy] |}.

(** [should_promote_level] *)
Definition should_promote_level (t : tracker) : bool :=
  if level_eqb (current_level t) hard then false
  else 2 <=? consecutive_correct t.

(** [should_demote_level] *)
Definition should_demote_level (t : tracker) : bool :=
  if level_eqb (current_level t) easy then false
  else 2 <=? consecutive_incorrect t.

(** [_change_level]: the counters are deliberately not reset. *)
Definition _change_level (t : tracker) (new_level : level) : tracker :=
  {| current_level := new_level;
     level_questions_asked := 0;
     consecutive_correct := consecutive_correct t;
     consecutive_incorrect := consecutive_incorrect t;
     level_progression := level_progression t ++ [new_level] |}.

(** [determine_next_level]: returns the new [current_level] and the new
    state of the tracker. *)
Definition determine_next_level (t : tracker) (technical_score : Z)
  : level * tracker :=
  let is_correct := 60 <=? technical_score in
  let t1 :=
    if is_correct then
      {| current_level := current_level t;
         level_questions_asked := level_questions_asked t;
         consecutive_correct := consecutive_correct t + 1;
         consecutive_incorrect := 0;
         level_progression := level_progression t |}
    else
      {| current_level := current_level t;
         level_questions_asked := level_questions_asked t;
         consecutive_correct := 0;
         consecutive_incorrect := consecutive_incorrect t + 1;
         level_progression := level_progression t |} in
  let t2 := {| current_level := current_level t1;
               level_questions_asked := level_questions_asked t1 + 1;
               consecutive_correct := consecutive_correct t1;
               consecutive_incorrect := consecutive_incorrect t1;
               level_progression := level_progression t1 |} in
  let t3 :=
    if should_promote_level t2 then
      let new_level := match current_level t2 with
                       | easy => medium
                       | _ => hard        (* current_level == "medium" *)
                       end in
      _change_level t2 new_level
    else if should_demote_level t2 then
      let new_level := match current_level t2 with
                       | medium => easy
                       | _ => medium      (* current_level == "hard" *)
                       end in
      _change_level t2 new_level
    else t2 in
  (current_level t3, t3).

(** Running the tracker over a sequence of scores. *)
Fixpoint run_scores (t : tracker) (scores : list Z) : tracker :=
  match scores with
  | [] => t
  | s :: rest => run_scores (snd (determine_next_level t s)) rest
  end.

(* ------------------------------------------------------------------ *)
(** ** Python string primitives, on ASCII text *)

Definition code (c : ascii) : nat := nat_of_ascii c.

(** [str.isspace]: ASCII whitespace as Python counts it (\t \n \v \f \r,
    the separators 0x1c-0x1f and the space). *)
Definition is_space (c : ascii) : bool :=
  let n := code c in
  ((9 <=? n)%nat && (n <=? 13)%nat) || ((28 <=? n)%nat && (n <=? 32)%nat).

(** [\d] *)
Definition is_digit (c : ascii) : bool :=
  let n := code c in (48 <=? n)%nat && (n <=? 57)%nat.

Definition is_alpha (c : ascii) : bool :=
  let n := code c in
  ((65 <=? n)%nat && (n <=? 90)%nat) || ((97 <=? n)%nat && (n <=? 122)%nat).

(** Word characters of [\b]: letters, digits and the underscore. *)
Definition is_word (c : ascii) : bool :=
  is_alpha c || is_digit c || (code c =? 95)%nat.

Definition lower_char (c : ascii) : ascii :=
  let n := code c in
  if (65 <=? n)%nat && (n <=? 90)%nat then ascii_of_nat (n + 32) else c.

(** [str.lower] *)
Definition lower (s : string) : string :=
  string_of_list_ascii (map lower_char (list_ascii_of_string s)).

Fixpoint drop_space (l : list ascii) : list ascii :=
  match l with
  | c :: r => if is_space c then drop_space r else l
  | [] => []
  end.

(** [str.strip()] *)
Definition strip (s : string) : string :=
  string_of_list_ascii
    (rev (drop_space (rev (drop_space (list_ascii_of_string s))))).

Fixpoint split_ws_aux (cur : list ascii) (l : list ascii) : list (list ascii) :=
  match l with
  | [] => match cur with [] => [] | _ => [rev cur] end
  | c :: r =>
      if is_space c then
        match cur with
        | [] => split_ws_aux [] r
        | _ => rev cur :: split_ws_aux [] r
        end
      else split_ws_aux (c :: cur) r
  end.

(** [str.split()] with no separator: the maximal runs of non-space. *)
Definition split_ws (s : string) : list string :=
  map string_of_list_ascii (split_ws_aux [] (list_ascii_of_string s)).

Fixpoint starts_with (p l : list ascii) : bool :=
  match p, l with
  | [], _ => true
  | a :: p', b :: l' => Ascii.eqb a b && starts_with p' l'
  | _ :: _, [] => false
  end.

Fixpoint contains_l (p l : list ascii) : bool :=
  starts_with p l || match l with [] => false | _ :: r => contains_l p r end.

(** [p in s] *)
Definition contains (p s : string) : bool :=
  contains_l (list_ascii_of_string p) (list_ascii_of_string s).

(** [s.split(sep)] for a non-empty separator; [fuel] bounds the number of
    characters still to scan. *)
Fixpoint split_on_aux (fuel : nat) (sep cur l : list ascii)
  : list (list ascii) :=
  match fuel with
  | O => [rev cur ++ l]
  | S fuel' =>
      match l with
      | [] => [rev cur]
      | c :: r =>
          if starts_with sep l then
            rev cur :: split_on_aux fuel' sep [] (skipn (length sep) l)
          else split_on_aux fuel' sep (c :: cur) r
      end
  end.

Definition split_on (sep s : string) : list string :=
  let l := list_ascii_of_string s in
  map string_of_list_ascii
    (split_on_aux (S (length l)) (list_ascii_of_string sep) [] l).

Fixpoint join (sep : string) (parts : list string) : string :=
  match parts with
  | [] => EmptyString
  | [p] => p
  | p :: rest => String.append p (String.append sep (join sep rest))
  end.

(** [s.replace(old, new)] for a non-empty [old]. *)
Definition replace (old new s : string) : string := join new (split_on old s).

(* ------------------------------------------------------------------ *)
(** ** The regular expression [\b\d{1,3}\b] of [evaluate_answer_quality] *)

Definition digits_value (l : list ascii) : Z :=
  fold_left (fun acc c => acc * 10 + Z.of_nat (code c - 48)) l 0.

(** [\b] after a digit: end of text or a non-word character. *)
Definition boundary_after (l : list ascii) : bool :=
  match l with [] => true | c :: _ => negb (is_word c) end.

(** [\d{k}\b] at the head of [l]. *)
Definition try_len (k : nat) (l : list ascii) : option Z :=
  let d := firstn k l in
  if (length d =? k)%nat && forallb is_digit d && boundary_after (skipn k l)
  then Some (digits_value d) else None.

(** [\d{1,3}\b] at the head of [l]: the greedy quantifier tries 3, 2, 1. *)
Definition try_at (l : list ascii) : option Z :=
  match try_len 3 l with
  | Some n => Some n
  | None => match try_len 2 l with
            | Some n => Some n
            | None => try_len 1 l
            end
  end.

(** Leftmost match of [\b\d{1,3}\b], i.e. [re.findall(...)[0]] converted by
    [int]; [prev_word] says whether the previous character is a word
    character (false at the start of the text). *)
Fixpoint find_number_aux (prev_word : bool) (l : list ascii) : option Z :=
  match l with
  | [] => None
  | c :: r =>
      match (if prev_word then None else try_at l) with
      | Some n => Some n
      | None => find_number_aux (is_word c) r
      end
  end.

Definition find_number (s : string) : option Z :=
  find_number_aux false (list_ascii_of_string s).

(* ------------------------------------------------------------------ *)
(** ** [evaluate_answer_quality] *)

(** What a call to an external collaborator did. *)
Inductive outcome (A : Type) := Returned (a : A) | Raised.
Arguments Returned {A} a.
Arguments Raised {A}.

Definition keywords : list string :=
  ["because"; "example"; "method"; "technique"; "approach"].

(** [llm_response] is what [self.llm.ask(evaluation_prompt)] did; the prompt
    itself only feeds the collaborator. *)
Definition evaluate_answer_quality (answer question : string)
  (llm_response : outcome string) : Z :=
  match llm_response with
  | Returned response =>
      let response := strip response in
      match find_number response with
      | Some score => Z.max 0 (Z.min 100 score)
      | None =>
          if (20 <? length (split_ws answer))%nat
             && existsb (fun keyword => contains keyword (lower answer)) keywords
          then 65 else 45
      end
  | Raised => if (50 <? String.length answer)%nat then 55 else 40
  end.

(* ------------------------------------------------------------------ *)
(** ** Proctoring penalties *)

(** [d.get(k, 0)] on a dict of counters. *)
Definition get0 (d : gmap string Z) (k : string) : Z := default 0 (d !! k).

(** [InterviewManager._calculate_proctoring_penalty]: the returned penalty.
    (The human-readable line items only go to a log and, when the dict
    already has a ["penalty_details"] entry, into it.) *)
Definition _calculate_proctoring_penalty (proctoring_stats : gmap string Z) : Z :=
  let penalty := 0 in
  let tab_switches := get0 proctoring_stats "tab_switch_count" in
  let penalty :=
    if 0 <? tab_switches then penalty + Z.min (tab_switches * 2) 20
    else penalty in
  let face_penalty := 0 in
  let multiple_faces := get0 proctoring_stats "multiple_faces" in
  let face_penalty :=
    if 0 <? multiple_faces then face_penalty + 15 * multiple_faces
    else face_penalty in
  let face_coverings := get0 proctoring_stats "face_coverings" in
  let face_penalty :=
    if 0 <? face_coverings then face_penalty + Z.min (face_coverings * 5) 25
    else face_penalty in
  let eye_coverings := get0 proctoring_stats "eye_coverings" in
  let face_penalty :=
    if 0 <? eye_coverings then face_penalty + Z.min (eye_coverings * 5) 25
    else face_penalty in
  let no_face_count := get0 proctoring_stats "no_face_count" in
  let face_penalty :=
    if 0 <? no_face_count then face_penalty + Z.min (no_face_count * 2) 15
    else face_penalty in
  let penalty := penalty + Z.min face_penalty 50 in
  let total_alerts := get0 proctoring_stats "total_alerts" in
  let penalty :=
    if 0 <? total_alerts then penalty + Z.min (total_alerts * 1) 10
    else penalty in
  Z.min penalty 70.

(** [ScoringService.calculate_proctoring_penalty]: the returned penalty
    (the same rules; this copy always stores its line items back into the
    dict). *)
Definition calculate_proctoring_penalty (proctoring_data : gmap string Z) : Z :=
  let penalty := 0 in
  let tab_switches := get0 proctoring_data "tab_switch_count" in
  let penalty :=
    if 0 <? tab_switches then penalty + Z.min (tab_switches * 2) 20
    else penalty in
  let face_penalty := 0 in
  let multiple_faces := get0 proctoring_data "multiple_faces" in
  let face_penalty :=
    if 0 <? multiple_faces then face_penalty + 15 * multiple_faces
    else face_penalty in
  let face_coverings := get0 proctoring_data "face_coverings" in
  let face_penalty :=
    if 0 <? face_coverings then face_penalty + Z.min (face_coverings * 5) 25
    else face_penalty in
  let eye_coverings := get0 proctoring_data "eye_coverings" in
  let face_penalty :=
    if 0 <? eye_coverings then face_penalty + Z.min (eye_coverings * 5) 25
    else face_penalty in
  let no_face_count := get0 proctoring_data "no_face_count" in
  let face_penalty :=
    if 0 <? no_face_count then face_penalty + Z.min (no_face_count * 2) 15
    else face_penalty in
  let penalty := penalty + Z.min face_penalty 50 in
  let total_alerts := get0 proctoring_data "total_alerts" in
  let penalty :=
    if 0 <? total_alerts then penalty + Z.min (total_alerts * 1) 10
    else penalty in
  Z.min penalty 70.

(** Python truthiness of an optional dict argument ([if proctoring_stats:]). *)
Definition truthy (d : option (gmap string Z)) : option (gmap string Z) :=
  match d with
  | Some m => if decide (m = ∅) then None else Some m
  | None => None
  end.

(* ------------------------------------------------------------------ *)
(** ** Float results: binary64 rounding, and [round(x, 1)] *)

(** Round half to even of a rational to an integer. *)
Definition round_half_even (q : Q) : Z :=
  let fl := Qfloor q in
  let r := (q - inject_Z fl)%Q in
  if negb (Qle_bool r (1 # 2)) then fl + 1
  else if Qeq_bool r (1 # 2) then (if Z.even fl then fl else fl + 1)
  else fl.

(** [q] rounded half to even to one decimal, exactly. *)
Definition round1 (q : Q) : Q := round_half_even (q * 10) # 10.

Definition pow2 (e : Z) : Q := Qpower (2 # 1) e.

(** floor(log2 |q|) for [q <> 0]. *)
Definition qlog2 (q : Q) : Z :=
  let k := Z.log2 (Z.abs (Qnum q)) - Z.log2 (Zpos (Qden q)) in
  if Qle_bool (pow2 k) (Qabs q) then k else k - 1.

(** The exponent of the last significand bit of the double nearest to
    [x <> 0]. *)
Definition fl_exp (x : Q) : Z := Z.max (qlog2 x - 52) (-1074).

(** The IEEE 754 binary64 value nearest to [x], ties to even: a 53-bit
    significand, subnormals below 2^-1022. (Results at or above 2^1024,
    which would overflow, only arise from the integer division below, which
    checks for them; every other operation modelled here stays far below.) *)
Definition fl (x : Q) : Q :=
  if Qeq_bool x 0 then 0
  else
    let e := fl_exp x in
    Qred (inject_Z (round_half_even (x / pow2 e)) * pow2 e).

(** [round(x, 1)] of a float: CPython rounds the exact binary value half to
    even to one decimal, then returns the double nearest to that decimal.
    (For an [int] argument [round] returns the [int] itself.) *)
Definition round1f (x : Q) : Q := fl (round1 x).

(** [a / b] of two [int]s: the correctly rounded quotient; [None] when it
    raises ([ZeroDivisionError], or [OverflowError] when the quotient is too
    large for a float). *)
Definition py_int_truediv (a b : Z) : option Q :=
  if b =? 0 then None
  else
    let r := fl (inject_Z a / inject_Z b) in
    if Qle_bool (pow2 1024) (Qabs r) then None else Some r.

(** The float literals [0.3], [0.4], [0.6] and [0.7]. *)
Definition f0_3 : Q := fl (3 # 10).
Definition f0_4 : Q := fl (4 # 10).
Definition f0_6 : Q := fl (6 # 10).
Definition f0_7 : Q := fl (7 # 10).

(** Python's [max(a, b)]: [b] only when it is strictly larger. *)
Definition py_max (a b : Q) : Q := if Qle_bool b a then a else b.

Definition sum_Z (l : list Z) : Z := fold_left Z.add l 0.

(** The exact quotient [sum(l) / len(l)] of a non-empty list. *)
Definition mean (l : list Z) : Q := inject_Z (sum_Z l) / inject_Z (Z.of_nat (length l)).

(** The [penalty_details] dict of a final evaluation. *)
Inductive penalty_details :=
  | NoDetails                                 (* {} *)
  | BaseOnly (base_score : Q)                 (* no proctoring penalty *)
  | Penalized (base_score : Q) (proctoring_penalty : Q)
              (final_score_after_penalties : Q).

(* ------------------------------------------------------------------ *)
(** ** [InterviewManager.calculate_final_evaluation] *)

(** The session fields the final evaluation reads. *)
Record session := mk_session {
  tracker_of : tracker;
  technical_scores : list Z
}.

Definition init_session : session := mk_session init_tracker [].

Record evaluation := mk_evaluation {
  final_level : level;
  level_score : Z;
  technical_score : Q;
  base_score : Q;
  overall_score : Q;
  eval_level_progression : list level;
  eval_penalty_details : penalty_details
}.

Definition level_weights (l : level) : Z :=
  match l with easy => 30 | medium => 70 | hard => 100 end.

(** [None]: the call raises ([sum / len] overflows). The products
    [level_score * 0.6] and [technical_score * 0.4] convert their [int]
    operand exactly; [base_score - proctoring_penalty] converts the [int]
    penalty. When [max(0, x)] or the default technical score give an [int],
    its [round(_, 1)] has the value [round1f] gives. *)
Definition calculate_final_evaluation (s : session)
  (proctoring_stats : option (gmap string Z)) : option evaluation :=
  let t := tracker_of s in
  let level_score := level_weights (current_level t) in
  match match technical_scores s with
        | [] => Some 50%Q
        | l => py_int_truediv (sum_Z l) (Z.of_nat (length l))
        end with
  | None => None
  | Some technical_score =>
      let base_score :=
        fl (fl (inject_Z level_score * f0_6) + fl (technical_score * f0_4)) in
      let '(final_score, details) :=
        match truthy proctoring_stats with
        | Some stats =>
            let proctoring_penalty := _calculate_proctoring_penalty stats in
            let final_score :=
              py_max 0 (fl (base_score - fl (inject_Z proctoring_penalty))) in
            (final_score, Penalized (round1f base_score) (inject_Z proctoring_penalty)
                                    (round1f final_score))
        | None => (base_score, BaseOnly (round1f base_score))
        end in
      Some {| final_level := current_level t;
              level_score := level_score;
              technical_score := round1f technical_score;
              base_score := round1f base_score;
              overall_score := round1f final_score;
              eval_level_progression := level_progression t;
              eval_penalty_details := details |}
  end.

(* ------------------------------------------------------------------ *)
(** ** One answered turn: [InterviewManager.process_answer] *)

(** The score is appended and the tracker updated; the next question does
    not touch these fields. (A skipped turn,
    [get_next_question_without_answer], leaves both unchanged.) *)
Definition process_answer (s : session) (question answer : string)
  (llm_response : outcome string) : session :=
  let technical_score := evaluate_answer_quality answer question llm_response in
  let technical_scores' := technical_scores s ++ [technical_score] in
  let '(_, t') := determine_next_level (tracker_of s) technical_score in
  mk_session t' technical_scores'.

Inductive reachable : session -> Prop :=
  | reach_init : reachable init_session
  | reach_answer s question answer r :
      reachable s -> reachable (process_answer s question answer r).

(* ------------------------------------------------------------------ *)
(** ** [ScoringService] *)

Record question_data := mk_question_data {
  question_number : nat;
  qd_technical_score : Z;
  qd_level : string
}.

(** The ledger parts of [scoring_data]. *)
Record scoring_data := mk_scoring_data {
  questions : list question_data;
  scores_technical : list Z;
  sd_level_progression : list string
}.

Definition initialize_scoring : scoring_data := mk_scoring_data [] [] [].

(** The running average it appends to [scores["overall"]] is read by none
    of the code modelled here and is left out; so is the [OverflowError] its
    division would raise for scores whose mean exceeds the float range. A
    ledger built here is thus any ledger the calls can build, and more. *)
Definition add_question_score (sd : scoring_data) (technical_score : Z)
  (lvl : string) : scoring_data :=
  mk_scoring_data
    (questions sd ++ [mk_question_data (S (length (questions sd))) technical_score lvl])
    (scores_technical sd ++ [technical_score])
    (sd_level_progression sd ++ [lvl]).

(** A ledger built by [add_question_score] calls from a fresh service. *)
Definition ledger_of (entries : list (Z * string)) : scoring_data :=
  fold_left (fun sd e => add_question_score sd (fst e) (snd e)) entries
            initialize_scoring.

(** [None]: the division raises. *)
Definition calculate_current_average (sd : scoring_data) : option Q :=
  match scores_technical sd with
  | [] => Some 0%Q
  | l => py_int_truediv (sum_Z l) (Z.of_nat (length l))
  end.

Record ss_evaluation := mk_ss_evaluation {
  ss_overall_score : Q;
  technical_avg : Q;
  ss_final_level : string;
  total_questions : nat;
  ss_penalty_details : penalty_details
}.

Definition ss_level_weights (final_level : string) : Q :=
  if String.eqb final_level "easy" then f0_3
  else if String.eqb final_level "medium" then f0_6
  else if String.eqb final_level "hard" then 1
  else f0_3.

(** [ScoringService.calculate_final_evaluation]; [None]: the call raises.
    The [int] operands ([100], the penalty) convert exactly. *)
Definition ss_calculate_final_evaluation (sd : scoring_data) (final_level : string)
  (proctoring_stats : option (gmap string Z)) : option ss_evaluation :=
  match questions sd with
  | [] => Some {| ss_overall_score := 0; technical_avg := 0;
                  ss_final_level := final_level; total_questions := 0;
                  ss_penalty_details := NoDetails |}
  | _ =>
      let level_weight := ss_level_weights final_level in
      match calculate_current_average sd with
      | None => None
      | Some technical_avg =>
          let base_score :=
            fl (fl (technical_avg * f0_7) + fl (fl (level_weight * 100) * f0_3)) in
          let '(final_score, details) :=
            match truthy proctoring_stats with
            | Some stats =>
                let proctoring_penalty := calculate_proctoring_penalty stats in
                let final_score :=
                  py_max 0 (fl (base_score - fl (inject_Z proctoring_penalty))) in
                (final_score, Penalized (round1f base_score) (inject_Z proctoring_penalty)
                                        (round1f final_score))
            | None => (base_score, BaseOnly (round1f base_score))
            end in
          Some {| ss_overall_score := round1f final_score;
                  technical_avg := round1f technical_avg;
                  ss_final_level := final_level;
                  total_questions := length (questions sd);
                  ss_penalty_details := details |}
      end
  end.

(* ------------------------------------------------------------------ *)
(** ** [LLMRunner.generate_text] *)

(** What one [self.model.generate_content(prompt)] call did: it raised, or
    it returned a response whose [text] attribute is missing ([None]) or
    present. *)
Inductive model_response := Raises | Response (text : option string).

Inductive event := Attempt (n : nat) | Sleep (seconds : Z).

Definition fallback_text : string := "Please continue with your answer.".

(** The [for attempt in range(max_retries)] loop from [attempt] on, with
    [remaining] iterations left. [None] is Python's [None], returned when the
    loop runs out without returning. *)
Fixpoint generate_loop (model : nat -> model_response) (max_retries : nat)
  (attempt remaining : nat) : option string * list event :=
  match remaining with
  | O => (None, [])
  | S remaining' =>
      match model attempt with
      | Response (Some text) =>
          if String.eqb text EmptyString
          then (Some fallback_text, [Attempt attempt])
          else (Some (strip text), [Attempt attempt])
      | Response None => (Some fallback_text, [Attempt attempt])
      | Raises =>
          if (attempt <? max_retries - 1)%nat then
            let '(r, evs) := generate_loop model max_retries (S attempt) remaining' in
            (r, Attempt attempt :: Sleep 2 :: evs)
          else (Some fallback_text, [Attempt attempt])
      end
  end.

(** [generate_text(prompt, max_retries)]; [model n] is what the model call
    does on attempt [n] for this prompt. *)
Definition generate_text (model : nat -> model_response) (max_retries : nat)
  : option string * list event :=
  generate_loop model max_retries 0 max_retries.

(** [ask(prompt)] *)
Definition ask (model : nat -> model_response) : option string :=
  fst (generate_text model 3).

(** The result of [self.llm.ask(...)] as its callers see it: a [None] result
    raises at its first use ([.strip()] or [in]) inside their [try]. *)
Definition ask_outcome (model : nat -> model_response) : outcome string :=
  match ask model with
  | Some s => Returned s
  | None => Raised
  end.

(* ------------------------------------------------------------------ *)
(** ** Next-question generation *)

Definition cat (l : list string) : string := fold_right String.append EmptyString l.

(** The [fallback_questions] table of [_generate_fallback_question]. *)
Definition fallback_questions (job_role : string) (l : level) : list string :=
  let jr := lower job_role in
  match l with
  | easy =>
      [cat ["Could you tell me more about your experience with "; jr; "?"];
       cat ["What interests you most about being a "; job_role; "?"];
       cat ["Can you describe a basic project related to "; jr;
            " that you've worked on?"]]
  | medium =>
      [cat ["How would you approach a typical challenge in "; jr; "?"];
       cat ["What are the key skills needed for a "; job_role; " role?"];
       cat ["Can you explain a technical concept relevant to "; jr; "?"]]
  | hard =>
      [cat ["How would you handle a complex situation in "; jr; "?"];
       cat ["What advanced techniques would you use in "; jr; "?"];
       cat ["Can you discuss a strategic approach to "; jr; " problems?"]]
  end.

(** [_generate_fallback_question]; [pick] stands for the index drawn by
    [random.choice]. *)
Definition _generate_fallback_question (job_role : string) (current_level : level)
  (pick : nat) : string :=
  nth (Nat.modulo pick 3) (fallback_questions job_role current_level) EmptyString.

Definition nl : string := String (ascii_of_nat 10) EmptyString.

(** [analyze_answer_and_generate_question]: the returned
    [(analysis, next_question)]; [llm_response] is what [self.llm.ask(prompt)]
    did. *)
Definition analyze_answer_and_generate_question (job_role : string)
  (current_level : level) (llm_response : outcome string) (pick : nat)
  : string * string :=
  match llm_response with
  | Returned response =>
      if contains "ANALYSIS:" response && contains "QUESTION:" response then
        let parts := split_on "QUESTION:" response in
        (strip (replace "ANALYSIS:" "" (nth 0 parts EmptyString)),
         strip (nth 1 parts EmptyString))
      else
        let lines := filter (fun line => negb (String.eqb line EmptyString))
                            (map strip (split_on nl response)) in
        if (2 <=? length lines)%nat then
          (nth 0 lines EmptyString, nth 1 lines EmptyString)
        else
          ("Answer received. Continuing interview.",
           _generate_fallback_question job_role current_level pick)
  | Raised =>
      ("Analysis not available.",
       _generate_fallback_question job_role current_level pick)
  end.

(** [get_next_question_without_answer]: the returned question. *)
Definition get_next_question_without_answer (job_role : string)
  (current_level : level) (llm_response : outcome string) (pick : nat) : string :=
  match llm_response with
  | Returned response =>
      let next_question := strip response in
      let next_question :=
        if contains "QUESTION:" next_question
        then strip (List.last (split_on "QUESTION:" next_question) EmptyString)
        else next_question in
      if (String.length next_question <? 10)%nat
         || (500 <? String.length next_question)%nat
      then _generate_fallback_question job_role current_level pick
      else next_question
  | Raised => _generate_fallback_question job_role current_level pick
  end.

(* ------------------------------------------------------------------ *)
(** ** [ScoringService] reports *)

(** Python's [max(l)] and [min(l)] on a non-empty list of ints (the source
    only calls them after checking [len(scores) >= 3]). *)
Definition list_max (l : list Z) : Z :=
  match l with [] => 0 | x :: r => fold_left Z.max r x end.

Definition list_min (l : list Z) : Z :=
  match l with [] => 0 | x :: r => fold_left Z.min r x end.

(** [l[-k:]] *)
Definition last_n (k : nat) {A} (l : list A) : list A := skipn (length l - k) l.

(** [identify_strengths] *)
Definition identify_strengths (sd : scoring_data) : list string :=
  let strengths := [] in
  let high_scores :=
    List.filter (fun q => 80 <=? qd_technical_score q) (questions sd) in
  let strengths :=
    if (3 <=? length high_scores)%nat
    then strengths ++ ["Strong technical knowledge in core areas"]
    else strengths in
  let strengths :=
    if existsb (String.eqb "hard") (sd_level_progression sd)
    then strengths ++ ["Capable of handling advanced concepts"]
    else strengths in
  let scores := scores_technical sd in
  let strengths :=
    if (3 <=? length scores)%nat && (list_max scores - list_min scores <=? 20)
    then strengths ++ ["Consistent performance across questions"]
    else strengths in
  match strengths with
  | [] => ["Demonstrates basic understanding"]
  | _ => strengths
  end.

(** [identify_weaknesses] *)
Definition identify_weaknesses (sd : scoring_data) : list string :=
  let weaknesses := [] in
  let low_scores :=
    List.filter (fun q => qd_technical_score q <? 60) (questions sd) in
  let weaknesses :=
    match low_scores with
    | [] => weaknesses
    | _ => weaknesses ++ ["Needs improvement in technical depth"]
    end in
  let weaknesses :=
    if (2 <=? length (sd_level_progression sd))%nat then
      let last_two := last_n 2 (sd_level_progression sd) in
      if bool_decide (last_two = ["easy"; "easy"])
      then weaknesses ++ ["Could benefit from practicing intermediate concepts"]
      else weaknesses
    else weaknesses in
  match weaknesses with
  | [] => ["Continue building experience"]
  | _ => weaknesses
  end.

Record scores_summary := mk_scores_summary {
  summary_total_questions : nat;
  average_score : Q;
  summary_current_level : string;
  level_history : list string;
  recent_scores : list Z
}.

(** [get_scores_summary]; [None]: the average raises. *)
Definition get_scores_summary (sd : scoring_data) : option scores_summary :=
  match calculate_current_average sd with
  | None => None
  | Some avg =>
      Some {| summary_total_questions := length (questions sd);
              average_score := avg;
              summary_current_level :=
                match sd_level_progression sd with
                | [] => "easy"
                | prog => List.last prog EmptyString
                end;
              level_history := sd_level_progression sd;
              recent_scores :=
                if (5 <? length (scores_technical sd))%nat
                then last_n 5 (scores_technical sd)
                else scores_technical sd |}
  end.

(* ------------------------------------------------------------------ *)
(** ** Proctoring state of [ReliableInterviewSession] ([backend/main.py]) *)

(** The integer fields: [tab_switch_count] and the counters of
    [proctoring_stats]. (The float ["last_face_time"] entry of that dict is
    read by none of the code modelled here and is left out.) *)
Record proctor := mk_proctor {
  tab_switch_count : Z;
  proctoring_stats : gmap string Z
}.

(** [__init__] *)
Definition init_proctor : proctor :=
  {| tab_switch_count := 0;
     proctoring_stats :=
       <["tab_switch_count" := 0]> (<["multiple_faces" := 0]>
       (<["face_coverings" := 0]> (<["eye_coverings" := 0]>
       (<["no_face_count" := 0]> (<["total_alerts" := 0]> ∅))))) |}.

(** [d[k] += n]: raises [KeyError] ([None]) when [k] is missing. *)
Definition incr_key (d : gmap string Z) (k : string) (n : Z) : option (gmap string Z) :=
  match d !! k with
  | Some v => Some (<[k := v + n]> d)
  | None => None
  end.

(** [update_proctoring_stats(alerts)]; [None] when it raises. *)
Definition update_proctoring_stats (p : proctor) (alerts : list string)
  : option proctor :=
  let stats := proctoring_stats p in
  let step (d : option (gmap string Z)) (alert key : string) :=
    match d with
    | Some d => if existsb (String.eqb alert) alerts then incr_key d key 1 else Some d
    | None => None
    end in
  let stats := step (Some stats) "MULTIPLE PEOPLE DETECTED" "multiple_faces" in
  let stats := step stats "FACE COVERED" "face_coverings" in
  let stats := step stats "EYES COVERED" "eye_coverings" in
  let stats := step stats "NO FACE DETECTED" "no_face_count" in
  let stats :=
    match stats, alerts with
    | Some d, _ :: _ => incr_key d "total_alerts" (Z.of_nat (length alerts))
    | _, _ => stats
    end in
  match stats with
  | Some d => Some (mk_proctor (tab_switch_count p) d)
  | None => None
  end.

(** The two websocket events that change the proctoring state: a video frame
    with the alerts of [detect_face_proctoring], and a tab switch. *)
Inductive proctor_event := Frame (alerts : list string) | TabSwitch.

Definition proctor_step (p : proctor) (ev : proctor_event) : option proctor :=
  match ev with
  | Frame alerts => update_proctoring_stats p alerts
  | TabSwitch =>
      let n := tab_switch_count p + 1 in
      Some (mk_proctor n (<["tab_switch_count" := n]> (proctoring_stats p)))
  end.

(** A run of events; once a handler raises, the session is left ([None]). *)
Fixpoint run_proctor (p : proctor) (evs : list proctor_event) : option proctor :=
  match evs with
  | [] => Some p
  | ev :: rest =>
      match proctor_step p ev with
      | Some p' => run_proctor p' rest
      | None => None
      end
  end.

(** The dict handed to [end_interview] when the interview completes. *)
Definition collected_stats (p : proctor) : gmap string Z :=
  let s := proctoring_stats p in
  <["tab_switch_count" := tab_switch_count p]>
  (<["multiple_faces" := get0 s "multiple_faces"]>
  (<["face_coverings" := get0 s "face_coverings"]>
  (<["eye_coverings" := get0 s "eye_coverings"]>
  (<["no_face_count" := get0 s "no_face_count"]>
  (<["total_alerts" := get0 s "total_alerts"]> ∅))))).

(** [get_proctoring_stats]: the ["estimated_penalty"] of the response. *)
Definition penalty_estimate (p : proctor) : Z :=
  let s := proctoring_stats p in
  let penalty_estimate := 0 in
  let penalty_estimate := penalty_estimate + Z.min (tab_switch_count p * 2) 20 in
  let penalty_estimate := penalty_estimate + Z.min (get0 s "multiple_faces" * 15) 30 in
  let penalty_estimate := penalty_estimate + Z.min (get0 s "face_coverings" * 5) 25 in
  let penalty_estimate := penalty_estimate + Z.min (get0 s "eye_coverings" * 5) 25 in
  let penalty_estimate := penalty_estimate + Z.min (get0 s "no_face_count" * 2) 15 in
  let penalty_estimate := penalty_estimate + Z.min (get0 s "total_alerts" * 1) 10 in
  Z.min penalty_estimate 70.

(* ------------------------------------------------------------------ *)
(** ** Vocabulary of the properties *)

Definition rank (l : level) : Z :=
  match l with easy => 0 | medium => 1 | hard => 2 end.

Definition streak_inv (t : tracker) : Prop :=
  0 <= consecutive_correct t /\ 0 <= consecutive_incorrect t /\
  Z.min (consecutive_correct t) (consecutive_incorrect t) = 0.

Definition counts_nonneg (d : gmap string Z) : Prop :=
  map_Forall (fun _ v => 0 <= v) d.

(** The penalty formula with every cap applied unconditionally. *)
Definition penalty_formula (d : gmap string Z) : Z :=
  Z.min (Z.min (2 * get0 d "tab_switch_count") 20
         + Z.min (15 * get0 d "multiple_faces"
                  + Z.min (5 * get0 d "face_coverings") 25
                  + Z.min (5 * get0 d "eye_coverings") 25
                  + Z.min (2 * get0 d "no_face_count") 15) 50
         + Z.min (1 * get0 d "total_alerts") 10) 70.

Definition face_stats : gmap string Z :=
  <["multiple_faces" := 1]> (<["face_coverings" := 10]>
    (<["eye_coverings" := 10]> (<["no_face_count" := 20]> ∅))).

(** The face subtotal before its cap of 50. *)
Definition face_subtotal_raw (d : gmap string Z) : Z :=
  15 * get0 d "multiple_faces" + Z.min (5 * get0 d "face_coverings") 25
  + Z.min (5 * get0 d "eye_coverings") 25 + Z.min (2 * get0 d "no_face_count") 15.

Definition all_space (sp : list ascii) : Prop := Forall (fun c => is_space c = true) sp.

Definition answer60 : string :=
  "I would profile the service first and then cache the results".

(** The technical average of [calculate_final_evaluation]; [None]: the
    division raises. *)
Definition technical_average (scores : list Z) : option Q :=
  match scores with
  | [] => Some 50%Q
  | l => py_int_truediv (sum_Z l) (Z.of_nat (length l))
  end.

Definition is_attempt (e : event) : bool :=
  match e with Attempt _ => true | Sleep _ => false end.

Definition attempts (evs : list event) : nat := length (filter is_attempt evs).

Definition sleeps_fixed (evs : list event) : Prop :=
  Forall (fun e => match e with Sleep x => x = 2 | Attempt _ => True end) evs.

(** A model call that fails: it raises, or its response has no text or an
    empty text. *)
Definition failed_call (r : model_response) : Prop :=
  r = Raises \/ r = Response None \/ r = Response (Some EmptyString).

(* ------------------------------------------------------------------ *)
(** ** Vocabulary of the further properties *)

(** A technical score that counts as correct in [determine_next_level]. *)
Definition passes (s : Z) : bool := 60 <=? s.

(** The length of the longest prefix of [l] whose elements satisfy [p]. *)
Fixpoint leading (p : Z -> bool) (l : list Z) : Z :=
  match l with [] => 0 | x :: r => if p x then 1 + leading p r else 0 end.

(** The length of the longest suffix of [l] whose elements satisfy [p]. *)
Definition trailing (p : Z -> bool) (l : list Z) : Z := leading p (rev l).

(** Adjacent entries of a level list differ by exactly one rank. *)
Fixpoint steps_ok (l : list level) : Prop :=
  match l with
  | a :: ((b :: _) as r) => Z.abs (rank a - rank b) = 1 /\ steps_ok r
  | _ => True
  end.

(** The six counters read by the penalty formulas. *)
Definition penalty_counters : list string :=
  ["tab_switch_count"; "multiple_faces"; "face_coverings"; "eye_coverings";
   "no_face_count"; "total_alerts"].

(** Counter-wise order on proctoring-stats dicts: every counter of [d1] is
    non-negative and at most the same counter of [d2]. *)
Definition counts_le (d1 d2 : gmap string Z) : Prop :=
  forall k, In k penalty_counters -> 0 <= get0 d1 k <= get0 d2 k.

(** The unrounded base score of [calculate_final_evaluation] for the
    technical average [avg]. *)
Definition base_of (s : session) (avg : Q) : Q :=
  fl (fl (inject_Z (level_weights (current_level (tracker_of s))) * f0_6)
      + fl (avg * f0_4)).

(** The events of [generate_text] when attempts [attempt], ..., [attempt + k - 1]
    raise and attempt [attempt + k] ends the loop. *)
Fixpoint retry_trace (attempt k : nat) : list event :=
  match k with
  | O => [Attempt attempt]
  | S k' => Attempt attempt :: Sleep 2 :: retry_trace (S attempt) k'
  end.

(** The number of tab switches in a run of events. *)
Fixpoint tab_switches (evs : list proctor_event) : Z :=
  match evs with
  | [] => 0
  | TabSwitch :: r => 1 + tab_switches r
  | Frame _ :: r => tab_switches r
  end.

(** The number of video frames whose alert list contains [a]. *)
Fixpoint frames_with (a : string) (evs : list proctor_event) : Z :=
  match evs with
  | [] => 0
  | Frame alerts :: r =>
      (if existsb (String.eqb a) alerts then 1 else 0) + frames_with a r
  | TabSwitch :: r => frames_with a r
  end.

(** The total length of the alert lists of the video frames. *)
Fixpoint alerts_total (evs : list proctor_event) : Z :=
  match evs with
  | [] => 0
  | Frame alerts :: r => Z.of_nat (length alerts) + alerts_total r
  | TabSwitch :: r => alerts_total r
  end.

(** Every counter of [penalty_counters] is a key of the dict. *)
Definition keys_present (d : gmap string Z) : Prop :=
  forall k, In k penalty_counters -> is_Some (d !! k).

(** The proctoring state after the events [evs]: every counter is present and
    counts its events. *)
Definition proctor_counts (p : proctor) (evs : list proctor_event) : Prop :=
  let s := proctoring_stats p in
  keys_present s /\
  tab_switch_count p = tab_switches evs /\
  get0 s "tab_switch_count" = tab_switches evs /\
  get0 s "multiple_faces" = frames_with "MULTIPLE PEOPLE DETECTED" evs /\
  get0 s "face_coverings" = frames_with "FACE COVERED" evs /\
  get0 s "eye_coverings" = frames_with "EYES COVERED" evs /\
  get0 s "no_face_count" = frames_with "NO FACE DETECTED" evs /\
  get0 s "total_alerts" = alerts_total evs.

(* ================================================================== *)
(** * Properties *)

Lemma level_eqb_eq a b : level_eqb a b = true <-> a = b.
Proof. destruct a, b; simpl; split; congruence. Qed.

Lemma rank_inj a b : rank a = rank b -> a = b.
Proof. destruct a, b; simpl; congruence. Qed.

Example run_three_passes :
  current_level (run_scores init_tracker [75; 75; 75]) = hard.
Proof. reflexivity. Qed.

(** ** C1 *)

(** C1: one call of [determine_next_level t s], from any tracker state:
    the streak counters are first updated ([s >= 60] increments
    [consecutive_correct] and zeroes [consecutive_incorrect], otherwise the
    mirror image); then the level goes up one step iff it is not [hard] and
    the updated [consecutive_correct >= 2]; otherwise it goes down one step
    iff it is not [easy] and the updated [consecutive_incorrect >= 2];
    otherwise it stays. So the level moves by at most one adjacent step, and
    the returned level is the new [current_level]. *)
Theorem determine_next_level_spec (t : tracker) (s : Z) :
  let '(ret, t') := determine_next_level t s in
  let cc := if 60 <=? s then consecutive_correct t + 1 else 0 in
  let ci := if 60 <=? s then 0 else consecutive_incorrect t + 1 in
  let old := current_level t in
  ret = current_level t' /\
  consecutive_correct t' = cc /\
  consecutive_incorrect t' = ci /\
  (if negb (level_eqb old hard) && (2 <=? cc) then
     rank (current_level t') = rank old + 1
   else if negb (level_eqb old easy) && (2 <=? ci) then
     rank (current_level t') = rank old - 1
   else current_level t' = old) /\
  Z.abs (rank (current_level t') - rank old) <= 1.
Proof.
  destruct t as [lvl lqa cc ci prog]; simpl.
  unfold determine_next_level, should_promote_level, should_demote_level,
    _change_level; simpl.
  destruct (60 <=? s); destruct lvl; simpl;
    repeat match goal with
    | |- context [2 <=? ?c] => destruct (2 <=? c) eqn:?
    end; simpl; repeat split; lia.
Qed.

(** ** C2 *)

Lemma determine_next_level_streak_inv (t : tracker) (s : Z) :
  0 <= consecutive_correct t -> 0 <= consecutive_incorrect t ->
  streak_inv (snd (determine_next_level t s)).
Proof.
  intros Hc Hi.
  destruct t as [lvl lqa cc ci prog]; simpl in *.
  unfold streak_inv, determine_next_level, should_promote_level,
    should_demote_level, _change_level; simpl.
  destruct (60 <=? s); destruct lvl; simpl;
    repeat match goal with
    | |- context [2 <=? ?c] => destruct (2 <=? c)
    end; simpl; lia.
Qed.

Lemma run_scores_streak_inv (t : tracker) (scores : list Z) :
  streak_inv t -> streak_inv (run_scores t scores).
Proof.
  revert t; induction scores as [|s rest IH]; intros t Ht; simpl; [exact Ht|].
  apply IH. destruct Ht as (Hc & Hi & _).
  by apply determine_next_level_streak_inv.
Qed.

(** C2: for every sequence of technical scores applied from the initial
    tracker, after every call of [determine_next_level] (every prefix of
    the sequence) both streak counters are non-negative and their minimum
    is 0: at most one of them is non-zero, level changes included. *)
Theorem streak_counters_exclusive (scores : list Z) :
  let t := run_scores init_tracker scores in
  0 <= consecutive_correct t /\ 0 <= consecutive_incorrect t /\
  Z.min (consecutive_correct t) (consecutive_incorrect t) = 0.
Proof.
  apply run_scores_streak_inv. unfold streak_inv; simpl; lia.
Qed.

(** ** C7 *)

Lemma run_scores_app (t : tracker) (l1 l2 : list Z) :
  run_scores t (l1 ++ l2) = run_scores (run_scores t l1) l2.
Proof. revert t; induction l1; intros t; simpl; auto. Qed.

(** C7: [_change_level] keeps both streak counters, sets the new level and
    appends it to [level_progression]; the progression starts as [[easy]];
    a call of [determine_next_level] appends the new level exactly when the
    level changes and leaves the progression alone otherwise. Hence after a
    promotion to a level below [hard], one more passing score ([>= 60])
    promotes again, and after a demotion to a level above [easy], one more
    failing score ([< 60]) demotes again. *)
Theorem change_level_keeps_counters :
  (forall (t : tracker) (l : level),
     let t' := _change_level t l in
     consecutive_correct t' = consecutive_correct t /\
     consecutive_incorrect t' = consecutive_incorrect t /\
     current_level t' = l /\
     level_progression t' = level_progression t ++ [l]) /\
  level_progression init_tracker = [easy] /\
  (forall (t : tracker) (s : Z),
     let t' := snd (determine_next_level t s) in
     level_progression t' =
       if level_eqb (current_level t') (current_level t)
       then level_progression t
       else level_progression t ++ [current_level t']) /\
  (forall (t : tracker) (s s' : Z),
     let t' := snd (determine_next_level t s) in
     rank (current_level t') = rank (current_level t) + 1 ->
     current_level t' <> hard -> 60 <= s' ->
     rank (current_level (snd (determine_next_level t' s'))) =
       rank (current_level t') + 1) /\
  (forall (t : tracker) (s s' : Z),
     let t' := snd (determine_next_level t s) in
     rank (current_level t') = rank (current_level t) - 1 ->
     current_level t' <> easy -> s' < 60 ->
     rank (current_level (snd (determine_next_level t' s'))) =
       rank (current_level t') - 1).
Proof.
  split; [intros t l; simpl; auto|].
  split; [reflexivity|].
  split; [|split].
  - intros [lvl lqa cc ci prog] s; simpl.
    unfold determine_next_level, should_promote_level, should_demote_level,
      _change_level; simpl.
    destruct (60 <=? s); destruct lvl; simpl;
      repeat match goal with
      | |- context [2 <=? ?c] => destruct (2 <=? c)
      end; simpl; reflexivity.
  - intros [lvl lqa cc ci prog] s s'; simpl.
    unfold determine_next_level, should_promote_level, should_demote_level,
      _change_level; simpl.
    destruct (60 <=? s) eqn:Es; destruct lvl; simpl;
      repeat match goal with
      | |- context [2 <=? ?c] => destruct (2 <=? c) eqn:?
      end; simpl; intros H1 H2 H3; try lia; try congruence;
      destruct (60 <=? s') eqn:Es'; rewrite ?Z.leb_le, ?Z.leb_gt in *;
      simpl; try lia;
      repeat match goal with
      | |- context [2 <=? ?c] => destruct (2 <=? c) eqn:?
      end; rewrite ?Z.leb_le, ?Z.leb_gt in *; simpl in *; lia.
  - intros [lvl lqa cc ci prog] s s'; simpl.
    unfold determine_next_level, should_promote_level, should_demote_level,
      _change_level; simpl.
    destruct (60 <=? s) eqn:Es; destruct lvl; simpl;
      repeat match goal with
      | |- context [2 <=? ?c] => destruct (2 <=? c) eqn:?
      end; simpl; intros H1 H2 H3; try lia; try congruence;
      destruct (60 <=? s') eqn:Es'; rewrite ?Z.leb_le, ?Z.leb_gt in *;
      simpl; try lia;
      repeat match goal with
      | |- context [2 <=? ?c] => destruct (2 <=? c) eqn:?
      end; rewrite ?Z.leb_le, ?Z.leb_gt in *; simpl in *; lia.
Qed.

Lemma change_level_keeps_counters_witness :
  rank (current_level (snd (determine_next_level (run_scores init_tracker [75]) 80)))
    = rank (current_level (run_scores init_tracker [75])) + 1 /\
  current_level (snd (determine_next_level (run_scores init_tracker [75]) 80)) <> hard /\
  60 <= 90 /\
  rank (current_level (snd (determine_next_level
          (snd (determine_next_level (run_scores init_tracker [75]) 80)) 90)))
    = rank (current_level (snd (determine_next_level (run_scores init_tracker [75]) 80)))
      + 1.
Proof.
  assert (H1 : rank (current_level (snd (determine_next_level
                 (run_scores init_tracker [75]) 80)))
               = rank (current_level (run_scores init_tracker [75])) + 1)
    by reflexivity.
  assert (H2 : current_level (snd (determine_next_level
                 (run_scores init_tracker [75]) 80)) <> hard) by discriminate.
  assert (H3 : 60 <= 90) by lia.
  split; [exact H1|]. split; [exact H2|]. split; [exact H3|].
  exact (proj1 (proj2 (proj2 (proj2 change_level_keeps_counters)))
           (run_scores init_tracker [75]) 80 90 H1 H2 H3).
Defined.

(** ** C3 *)

Lemma get0_nonneg (d : gmap string Z) (k : string) :
  counts_nonneg d -> 0 <= get0 d k.
Proof.
  intros Hd. unfold get0. destruct (d !! k) as [v|] eqn:Hk; simpl; [|lia].
  exact (map_Forall_lookup_1 _ _ _ _ Hd Hk).
Qed.

Ltac penalty_cases :=
  repeat match goal with
  | |- context [0 <? ?x] => destruct (0 <? x) eqn:?
  end; rewrite ?Z.ltb_lt, ?Z.ltb_ge in *.

Lemma _calculate_proctoring_penalty_formula (d : gmap string Z) :
  counts_nonneg d -> _calculate_proctoring_penalty d = penalty_formula d.
Proof.
  intros Hd. unfold _calculate_proctoring_penalty, penalty_formula.
  pose proof (get0_nonneg d "tab_switch_count" Hd).
  pose proof (get0_nonneg d "multiple_faces" Hd).
  pose proof (get0_nonneg d "face_coverings" Hd).
  pose proof (get0_nonneg d "eye_coverings" Hd).
  pose proof (get0_nonneg d "no_face_count" Hd).
  pose proof (get0_nonneg d "total_alerts" Hd).
  penalty_cases; lia.
Qed.

Lemma calculate_proctoring_penalty_formula (d : gmap string Z) :
  counts_nonneg d -> calculate_proctoring_penalty d = penalty_formula d.
Proof.
  intros Hd. unfold calculate_proctoring_penalty, penalty_formula.
  pose proof (get0_nonneg d "tab_switch_count" Hd).
  pose proof (get0_nonneg d "multiple_faces" Hd).
  pose proof (get0_nonneg d "face_coverings" Hd).
  pose proof (get0_nonneg d "eye_coverings" Hd).
  pose proof (get0_nonneg d "no_face_count" Hd).
  pose proof (get0_nonneg d "total_alerts" Hd).
  penalty_cases; lia.
Qed.

Lemma penalty_formula_range (d : gmap string Z) :
  counts_nonneg d -> 0 <= penalty_formula d <= 70.
Proof.
  intros Hd. unfold penalty_formula.
  pose proof (get0_nonneg d "tab_switch_count" Hd).
  pose proof (get0_nonneg d "multiple_faces" Hd).
  pose proof (get0_nonneg d "face_coverings" Hd).
  pose proof (get0_nonneg d "eye_coverings" Hd).
  pose proof (get0_nonneg d "no_face_count" Hd).
  pose proof (get0_nonneg d "total_alerts" Hd).
  lia.
Qed.

(** C3: for every proctoring-stats dict whose counts are non-negative
    integers, both copies of the penalty computation
    ([InterviewManager._calculate_proctoring_penalty] and
    [ScoringService.calculate_proctoring_penalty]) return
    min(min(2*tab, 20) + min(15*multiple + min(5*face, 25) + min(5*eye, 25)
    + min(2*noface, 15), 50) + min(1*alerts, 10), 70), which lies in
    [[0, 70]]; 15 tab switches alone give 20; multiple_faces = 1,
    face_coverings = 10, eye_coverings = 10, no_face_count = 20 give a face
    subtotal of 50 out of a raw capped sum of 80. *)
Theorem proctoring_penalty_formula (d : gmap string Z) :
  counts_nonneg d ->
  _calculate_proctoring_penalty d = penalty_formula d /\
  calculate_proctoring_penalty d = penalty_formula d /\
  0 <= _calculate_proctoring_penalty d <= 70 /\
  _calculate_proctoring_penalty {[ "tab_switch_count" := 15 ]} = 20 /\
  face_subtotal_raw face_stats = 80 /\
  _calculate_proctoring_penalty face_stats = 50.
Proof.
  intros Hd.
  rewrite (_calculate_proctoring_penalty_formula d Hd).
  rewrite (calculate_proctoring_penalty_formula d Hd).
  split; [reflexivity|]. split; [reflexivity|].
  split; [apply penalty_formula_range, Hd|].
  split; [reflexivity|]. split; reflexivity.
Qed.

Lemma proctoring_penalty_formula_witness :
  counts_nonneg face_stats /\
  _calculate_proctoring_penalty face_stats = penalty_formula face_stats.
Proof.
  assert (H : counts_nonneg face_stats).
  { unfold counts_nonneg, face_stats.
    repeat apply map_Forall_insert_2; try lia. apply map_Forall_empty. }
  split; [exact H|]. apply (proctoring_penalty_formula face_stats H).
Defined.

(** ** C4 *)

Lemma space_not_word (c : ascii) : is_space c = true -> is_word c = false.
Proof.
  unfold is_space, is_word, is_alpha, is_digit.
  generalize (code c); intros n.
  repeat match goal with
  | |- context [(?a <=? ?b)%nat] => destruct (Nat.leb_spec a b)
  | |- context [(?a =? ?b)%nat] => destruct (Nat.eqb_spec a b)
  end; simpl; lia.
Qed.

Lemma space_not_digit (c : ascii) : is_space c = true -> is_digit c = false.
Proof.
  intros H. pose proof (space_not_word c H) as Hw.
  unfold is_word in Hw. destruct (is_digit c); [|reflexivity].
  rewrite orb_true_r in Hw. simpl in Hw. congruence.
Qed.

Lemma drop_space_split (l : list ascii) :
  exists pre, all_space pre /\ l = pre ++ drop_space l.
Proof.
  induction l as [|c r IH]; simpl.
  - exists []. split; [constructor | reflexivity].
  - destruct (is_space c) eqn:Hc.
    + destruct IH as [pre [Hpre Heq]]. exists (c :: pre).
      split; [constructor; auto|]. simpl. congruence.
    + exists []. split; [constructor | reflexivity].
Qed.

Lemma try_len_app_space (k : nat) (l sp : list ascii) :
  all_space sp -> try_len k (l ++ sp) = try_len k l.
Proof.
  intros Hsp. destruct sp as [|s0 sp']; [by rewrite app_nil_r|].
  inversion Hsp as [|? ? Hs0 Hsp']; subst.
  unfold try_len.
  destruct (Nat.le_gt_cases k (length l)) as [Hle|Hgt].
  - rewrite firstn_app, skipn_app.
    replace (k - length l)%nat with 0%nat by lia. simpl.
    rewrite app_nil_r.
    destruct (skipn k l) as [|x rest] eqn:Hsk; simpl; [|reflexivity].
    rewrite (space_not_word s0 Hs0). simpl.
    reflexivity.
  - rewrite firstn_app.
    replace (k - length l)%nat with (S (k - length l - 1)) by lia.
    simpl. rewrite forallb_app. simpl.
    rewrite (space_not_digit s0 Hs0). simpl.
    rewrite !andb_false_r, andb_false_l.
    rewrite firstn_all2 by lia.
    destruct (Nat.eqb_spec (length l) k); [lia|]. reflexivity.
Qed.

Lemma try_at_app_space (l sp : list ascii) :
  all_space sp -> try_at (l ++ sp) = try_at l.
Proof.
  intros Hsp. unfold try_at. rewrite !try_len_app_space by exact Hsp.
  reflexivity.
Qed.

Lemma try_at_space_head (c : ascii) (r : list ascii) :
  is_space c = true -> try_at (c :: r) = None.
Proof.
  intros Hc. pose proof (space_not_digit c Hc) as Hd.
  unfold try_at, try_len. simpl. rewrite Hd. simpl.
  rewrite !andb_false_r. reflexivity.
Qed.

Lemma find_number_aux_spaces (b : bool) (sp : list ascii) :
  all_space sp -> find_number_aux b sp = None.
Proof.
  intros Hsp. revert b. induction Hsp as [|c r Hc Hr IH]; intros b; simpl;
    [reflexivity|].
  destruct b; [apply IH|]. rewrite try_at_space_head by exact Hc. apply IH.
Qed.

Lemma find_number_aux_app_space (b : bool) (l sp : list ascii) :
  all_space sp -> find_number_aux b (l ++ sp) = find_number_aux b l.
Proof.
  intros Hsp. revert b. induction l as [|c r IH]; intros b.
  - apply find_number_aux_spaces, Hsp.
  - simpl. change (try_at (c :: r ++ sp)) with (try_at ((c :: r) ++ sp)).
    rewrite try_at_app_space by exact Hsp. rewrite IH. reflexivity.
Qed.

Lemma find_number_aux_drop_space (l : list ascii) :
  find_number_aux false (drop_space l) = find_number_aux false l.
Proof.
  induction l as [|c r IH]; simpl; [reflexivity|].
  destruct (is_space c) eqn:Hc; [|reflexivity].
  rewrite try_at_space_head by exact Hc.
  rewrite (space_not_word c Hc). exact IH.
Qed.

(** The number search of [evaluate_answer_quality] gives the same result on
    the stripped response as on the raw one. *)
Lemma find_number_strip (response : string) :
  find_number (strip response) = find_number response.
Proof.
  unfold find_number, strip. rewrite list_ascii_of_string_of_list_ascii.
  set (l1 := drop_space (list_ascii_of_string response)).
  destruct (drop_space_split (rev l1)) as [pre [Hpre Heq]].
  assert (Hl1 : l1 = rev (drop_space (rev l1)) ++ rev pre).
  { rewrite <- (rev_involutive l1) at 1. rewrite Heq at 1. rewrite rev_app_distr.
    reflexivity. }
  assert (Hsp : all_space (rev pre)).
  { unfold all_space in *. apply Forall_rev, Hpre. }
  rewrite <- (find_number_aux_app_space false _ _ Hsp), <- Hl1.
  apply find_number_aux_drop_space.
Qed.

Lemma digit_value_range (c : ascii) :
  is_digit c = true -> 0 <= Z.of_nat (code c - 48) <= 9.
Proof.
  unfold is_digit. generalize (code c); intros n.
  destruct (Nat.leb_spec 48 n), (Nat.leb_spec n 57); simpl; intros Hd;
    try discriminate; lia.
Qed.

Lemma try_len_range (k : nat) (l : list ascii) (n : Z) :
  (k <= 3)%nat -> try_len k l = Some n -> 0 <= n <= 999.
Proof.
  intros Hk Hn. unfold try_len in Hn.
  set (d := firstn k l) in *.
  destruct ((length d =? k)%nat && forallb is_digit d
            && boundary_after (skipn k l)) eqn:E; [|discriminate].
  injection Hn as <-.
  apply andb_true_iff in E as [E _]. apply andb_true_iff in E as [E1 E2].
  apply Nat.eqb_eq in E1.
  destruct d as [|a [|b [|c [|x r]]]]; simpl in E1, E2 |- *; try lia;
    rewrite ?andb_true_iff in E2;
    repeat match goal with
    | H : _ /\ _ |- _ => destruct H
    | H : is_digit ?c = true |- _ => apply digit_value_range in H
    end; unfold digits_value; simpl; lia.
Qed.

Lemma try_at_range (l : list ascii) (n : Z) :
  try_at l = Some n -> 0 <= n <= 999.
Proof.
  unfold try_at.
  destruct (try_len 3 l) eqn:E3; [intros [= <-]; exact (try_len_range 3 l _ ltac:(lia) E3)|].
  destruct (try_len 2 l) eqn:E2; [intros [= <-]; exact (try_len_range 2 l _ ltac:(lia) E2)|].
  apply try_len_range; lia.
Qed.

Lemma find_number_aux_range (b : bool) (l : list ascii) (n : Z) :
  find_number_aux b l = Some n -> 0 <= n <= 999.
Proof.
  revert b. induction l as [|c r IH]; intros b; simpl; [discriminate|].
  destruct (if b then None else try_at (c :: r)) eqn:E.
  - intros [= <-]. destruct b; [discriminate|]. exact (try_at_range _ _ E).
  - apply IH.
Qed.

(** C4: [evaluate_answer_quality] has three tiers. (1) When the
    collaborator's response contains a match of [\b\d{1,3}\b] (a 1-to-3
    digit number standing alone between non-word characters), the first
    match, a value in [[0, 999]], is clamped to [[0, 100]]. (2) When there is
    no such number, the score is 65 if the answer has more than 20
    whitespace-separated words and contains one of "because", "example",
    "method", "technique", "approach" in its lower-cased form, else 45.
    (3) When the collaborator call raised, the score is 55 if the answer
    has more than 50 characters, else 40: 55 for a 60-character answer and
    40 for a 10-character one. *)
Theorem evaluate_answer_quality_tiers :
  (forall (answer question response : string) (n : Z),
     find_number response = Some n ->
     0 <= n <= 999 /\
     evaluate_answer_quality answer question (Returned response)
       = Z.max 0 (Z.min 100 n)) /\
  (forall (answer question response : string),
     find_number response = None ->
     ((20 < length (split_ws answer))%nat /\
      Exists (fun keyword => contains keyword (lower answer) = true) keywords ->
      evaluate_answer_quality answer question (Returned response) = 65) /\
     (~ ((20 < length (split_ws answer))%nat /\
         Exists (fun keyword => contains keyword (lower answer) = true) keywords) ->
      evaluate_answer_quality answer question (Returned response) = 45)) /\
  (forall (answer question : string),
     evaluate_answer_quality answer question Raised
       = if (50 <? String.length answer)%nat then 55 else 40) /\
  (forall (answer question : string),
     String.length answer = 60%nat ->
     evaluate_answer_quality answer question Raised = 55) /\
  (forall (answer question : string),
     String.length answer = 10%nat ->
     evaluate_answer_quality answer question Raised = 40).
Proof.
  split; [|split; [|split; [|split]]].
  - intros answer question response n Hn. split.
    + exact (find_number_aux_range _ _ _ Hn).
    + simpl. rewrite find_number_strip, Hn. reflexivity.
  - intros answer question response Hn.
    unfold evaluate_answer_quality; cbv beta iota zeta.
    rewrite find_number_strip, Hn. split.
    + intros [Hw Hk]. apply Nat.ltb_lt in Hw. rewrite Hw.
      apply List.Exists_exists, existsb_exists in Hk.
      rewrite Hk. reflexivity.
    + intros Hnot.
      destruct ((20 <? length (split_ws answer))%nat) eqn:Hw; cbn [andb]; [|reflexivity].
      destruct (existsb (fun keyword => contains keyword (lower answer)) keywords)
        eqn:Hk; [|reflexivity].
      exfalso. apply Hnot. split; [apply Nat.ltb_lt, Hw|].
      apply existsb_exists in Hk. destruct Hk as [k [Hin Hc]].
      apply List.Exists_exists. eauto.
  - reflexivity.
  - intros answer question H. simpl. rewrite H. reflexivity.
  - intros answer question H. simpl. rewrite H. reflexivity.
Qed.

Lemma evaluate_answer_quality_tiers_witness :
  String.length answer60 = 60%nat /\
  evaluate_answer_quality answer60 "How do you speed up an API?" Raised = 55.
Proof.
  assert (H : String.length answer60 = 60%nat) by reflexivity.
  split; [exact H|].
  exact (proj1 (proj2 (proj2 (proj2 evaluate_answer_quality_tiers)))
           answer60 "How do you speed up an API?" H).
Defined.

(** ** Arithmetic facts on the float model *)

Lemma round_half_even_mono (x y : Q) : (x <= y)%Q -> round_half_even x <= round_half_even y.
Proof.
  intros Hxy. unfold round_half_even.
  pose proof (Qfloor_le x) as Hfx. pose proof (Qlt_floor x) as Hcx.
  pose proof (Qfloor_le y) as Hfy. pose proof (Qlt_floor y) as Hcy.
  pose proof (Qfloor_resp_le x y Hxy) as Hfl.
  rewrite inject_Z_plus in Hcx, Hcy. change (inject_Z 1) with 1%Q in Hcx, Hcy.
  set (fx := Qfloor x) in *. set (fy := Qfloor y) in *.
  assert (Hb : forall a b c : Z, a <= b <= c -> a <= c) by lia.
  destruct (Z.eq_dec fx fy) as [Heq|Hne].
  - rewrite <- Heq in *.
    destruct (Qle_bool (x - inject_Z fx) (1 # 2)) eqn:E1;
    destruct (Qle_bool (y - inject_Z fx) (1 # 2)) eqn:E2; simpl.
    + destruct (Qeq_bool (x - inject_Z fx) (1 # 2)) eqn:E3;
      destruct (Qeq_bool (y - inject_Z fx) (1 # 2)) eqn:E4;
      try (destruct (Z.even fx)); try lia.
      apply Qeq_bool_iff in E3. apply not_true_iff_false in E4.
      rewrite Qeq_bool_iff in E4. apply Qle_bool_iff in E2. exfalso. apply E4. lra.
    + destruct (Qeq_bool (x - inject_Z fx) (1 # 2)); try destruct (Z.even fx); lia.
    + apply not_true_iff_false in E1. rewrite Qle_bool_iff in E1.
      apply Qle_bool_iff in E2. exfalso. apply E1. lra.
    + lia.
  - assert (Hlt : fx < fy) by lia.
    assert (A : round_half_even x <= fx + 1).
    { unfold round_half_even. fold fx.
      destruct (Qle_bool _ _); simpl; [destruct (Qeq_bool _ _); [destruct (Z.even fx)|]|]; lia. }
    assert (B : fy <= round_half_even y).
    { unfold round_half_even. fold fy.
      destruct (Qle_bool _ _); simpl; [destruct (Qeq_bool _ _); [destruct (Z.even fy)|]|]; lia. }
    unfold round_half_even in A, B. fold fx in A. fold fy in B. lia.
Qed.

(** Powers of two *)

Lemma pow2_pos (e : Z) : (0 < pow2 e)%Q.
Proof. apply Qpower_0_lt. reflexivity. Qed.

Lemma pow2_add (a b : Z) : (pow2 (a + b) == pow2 a * pow2 b)%Q.
Proof. apply Qpower_plus. discriminate. Qed.

Lemma pow2_le (a b : Z) : a <= b -> (pow2 a <= pow2 b)%Q.
Proof. intros H. apply Qpower_le_compat_l; [exact H | discriminate]. Qed.

Lemma pow2_lt (a b : Z) : a < b -> (pow2 a < pow2 b)%Q.
Proof. intros H. apply Qpower_lt_compat_l; [exact H | reflexivity]. Qed.

Lemma pow2_le_inv (a b : Z) : (pow2 a <= pow2 b)%Q -> a <= b.
Proof. intros H. apply (Qpower_le_compat_l_inv (2 # 1)); [exact H | reflexivity]. Qed.

Lemma pow2_lt_inv (a b : Z) : (pow2 a < pow2 b)%Q -> a < b.
Proof. intros H. apply (Qpower_lt_compat_l_inv (2 # 1)); [exact H | reflexivity]. Qed.

Lemma pow2_Z (n : Z) : 0 <= n -> (pow2 n == inject_Z (2 ^ n))%Q.
Proof. intros H. unfold pow2. rewrite Zpower_Qpower by exact H. reflexivity. Qed.

Lemma pow2_sub_mul (i j : Z) : 0 <= i -> 0 <= j ->
  (pow2 (i - j) * inject_Z (2 ^ j) == inject_Z (2 ^ i))%Q.
Proof.
  intros Hi Hj. rewrite <- pow2_Z, <- pow2_Z by assumption.
  rewrite <- pow2_add. replace (i - j + j) with i by ring. reflexivity.
Qed.

(** [qlog2] *)

Lemma qlog2_bounds (x : Q) : ~ (x == 0)%Q ->
  (pow2 (qlog2 x - 1) <= Qabs x < pow2 (qlog2 x + 1))%Q /\ (pow2 (qlog2 x) <= Qabs x)%Q.
Proof.
  intros Hx. destruct x as [n d].
  assert (Hn : n <> 0) by (intros ->; apply Hx; reflexivity).
  set (a := Z.abs n). set (b := Zpos d).
  assert (Ha : 0 < a) by lia.
  assert (Hb : 0 < b) by lia.
  pose proof (Z.log2_spec a Ha) as [Ha1 Ha2].
  pose proof (Z.log2_spec b Hb) as [Hb1 Hb2].
  rewrite <- Z.add_1_r in Ha2, Hb2.
  set (la := Z.log2 a) in *. set (lb := Z.log2 b) in *.
  assert (Hla : 0 <= la) by apply Z.log2_nonneg.
  assert (Hlb : 0 <= lb) by apply Z.log2_nonneg.
  assert (Habs : Qabs (n # d) = (a # d)%Q) by reflexivity.
  (* lower bound at la - lb - 1 and upper bound at la - lb + 1 *)
  assert (Hlo : (pow2 (la - lb - 1) <= Qabs (n # d))%Q).
  { rewrite Habs.
    assert (E : (pow2 (la - (lb + 1)) * inject_Z (2 ^ (lb + 1)) == inject_Z (2 ^ la))%Q)
      by (apply pow2_sub_mul; lia).
    replace (la - lb - 1) with (la - (lb + 1)) by ring.
    apply (Qmult_le_r _ _ (inject_Z (2 ^ (lb + 1)))).
    { change 0%Q with (inject_Z 0). rewrite <- Zlt_Qlt. lia. }
    rewrite E.
    unfold Qle, Qmult; simpl. fold b. nia. }
  assert (Hhi : (Qabs (n # d) < pow2 (la - lb + 1))%Q).
  { rewrite Habs.
    assert (E : (pow2 (la + 1 - lb) * inject_Z (2 ^ lb) == inject_Z (2 ^ (la + 1)))%Q)
      by (apply pow2_sub_mul; lia).
    replace (la - lb + 1) with (la + 1 - lb) by ring.
    apply (Qmult_lt_r _ _ (inject_Z (2 ^ lb))).
    { change 0%Q with (inject_Z 0). rewrite <- Zlt_Qlt. lia. }
    rewrite E.
    unfold Qlt, Qmult; simpl. fold b. nia. }
  unfold qlog2. cbn [Qnum Qden]. fold a b la lb.
  destruct (Qle_bool (pow2 (la - lb)) (Qabs (n # d))) eqn:E.
  - apply Qle_bool_iff in E. split; [split|]; [| exact Hhi | exact E].
    eapply Qle_trans; [|exact E]. apply pow2_le. lia.
  - apply not_true_iff_false in E. rewrite Qle_bool_iff in E. apply Qnot_le_lt in E.
    replace (la - lb - 1 + 1) with (la - lb) by ring.
    split; [split|]; [| exact E | exact Hlo].
    eapply Qle_trans; [|exact Hlo]. apply pow2_le. lia.
Qed.

Lemma qlog2_spec (x : Q) : ~ (x == 0)%Q ->
  (pow2 (qlog2 x) <= Qabs x < pow2 (qlog2 x + 1))%Q.
Proof. intros Hx. destruct (qlog2_bounds x Hx) as [[_ H1] H2]. split; assumption. Qed.

Lemma qlog2_unique (x : Q) (k : Z) : ~ (x == 0)%Q ->
  (pow2 k <= Qabs x < pow2 (k + 1))%Q -> qlog2 x = k.
Proof.
  intros Hx [H1 H2]. destruct (qlog2_spec x Hx) as [H3 H4].
  assert (A : k < qlog2 x + 1) by (apply pow2_lt_inv; eapply Qle_lt_trans; eassumption).
  assert (B : qlog2 x < k + 1) by (apply pow2_lt_inv; eapply Qle_lt_trans; eassumption).
  lia.
Qed.

Lemma qlog2_compat (x y : Q) : ~ (x == 0)%Q -> (x == y)%Q -> qlog2 x = qlog2 y.
Proof.
  intros H0 H. assert (Hy : ~ (y == 0)%Q) by (intros Hy; apply H0; rewrite H; exact Hy).
  apply qlog2_unique; [exact H0|].
  pose proof (Qabs_wd _ _ H) as Ha. pose proof (qlog2_spec y Hy). lra.
Qed.

(** [round_half_even] *)

Lemma round_half_even_Z (n : Z) : round_half_even (inject_Z n) = n.
Proof.
  unfold round_half_even. rewrite Qfloor_Z.
  assert (E : (inject_Z n - inject_Z n == 0)%Q) by ring.
  destruct (Qle_bool (inject_Z n - inject_Z n) (1 # 2)) eqn:E1.
  - destruct (Qeq_bool (inject_Z n - inject_Z n) (1 # 2)) eqn:E2; [|reflexivity].
    apply Qeq_bool_iff in E2. rewrite E in E2. discriminate.
  - apply not_true_iff_false in E1. rewrite Qle_bool_iff in E1. exfalso. apply E1.
    rewrite E. discriminate.
Qed.

Lemma round_half_even_compat (x y : Q) : (x == y)%Q -> round_half_even x = round_half_even y.
Proof.
  intros H. apply Z.le_antisymm; apply round_half_even_mono; rewrite H; apply Qle_refl.
Qed.

Lemma round_half_even_le (x : Q) (n : Z) : (x <= inject_Z n)%Q -> round_half_even x <= n.
Proof. intros H. rewrite <- (round_half_even_Z n). apply round_half_even_mono, H. Qed.

Lemma round_half_even_ge (x : Q) (n : Z) : (inject_Z n <= x)%Q -> n <= round_half_even x.
Proof. intros H. rewrite <- (round_half_even_Z n). apply round_half_even_mono, H. Qed.

(** [fl] *)

Lemma fl_eq (x : Q) : ~ (x == 0)%Q ->
  fl x = Qred (inject_Z (round_half_even (x / pow2 (fl_exp x))) * pow2 (fl_exp x)).
Proof.
  intros Hx. unfold fl. destruct (Qeq_bool x 0) eqn:E; [|reflexivity].
  apply Qeq_bool_iff in E. contradiction.
Qed.

Lemma fl_zero (x : Q) : (x == 0)%Q -> fl x = 0%Q.
Proof. intros Hx. unfold fl. apply Qeq_bool_iff in Hx. rewrite Hx. reflexivity. Qed.

Lemma fl_compat (x y : Q) : (x == y)%Q -> fl x = fl y.
Proof.
  intros H. destruct (Qeq_dec x 0) as [H0|H0].
  - rewrite (fl_zero x H0), (fl_zero y); [reflexivity|]. rewrite <- H. exact H0.
  - assert (Hy : ~ (y == 0)%Q) by (intros Hy; apply H0; rewrite H; exact Hy).
    rewrite (fl_eq x H0), (fl_eq y Hy). unfold fl_exp.
    rewrite (qlog2_compat x y H0 H).
    rewrite (round_half_even_compat (x / pow2 (Z.max (qlog2 y - 52) (-1074)))
                                    (y / pow2 (Z.max (qlog2 y - 52) (-1074))));
      [reflexivity|].
    rewrite H. reflexivity.
Qed.

Lemma div_pow2_nonneg (x : Q) (e : Z) : (0 <= x)%Q -> (0 <= x / pow2 e)%Q.
Proof.
  intros H. apply Qle_shift_div_l; [apply pow2_pos|]. rewrite Qmult_0_l. exact H.
Qed.

Lemma fl_nonneg (x : Q) : (0 <= x)%Q -> (0 <= fl x)%Q.
Proof.
  intros H. destruct (Qeq_dec x 0) as [H0|H0]; [rewrite fl_zero by exact H0; apply Qle_refl|].
  rewrite (fl_eq x H0), Qred_correct.
  apply Qmult_le_0_compat; [|apply Qlt_le_weak, pow2_pos].
  change 0%Q with (inject_Z 0). rewrite <- Zle_Qle.
  apply round_half_even_ge. apply div_pow2_nonneg, H.
Qed.

Lemma fl_nonpos (x : Q) : (x <= 0)%Q -> (fl x <= 0)%Q.
Proof.
  intros H. destruct (Qeq_dec x 0) as [H0|H0]; [rewrite fl_zero by exact H0; apply Qle_refl|].
  rewrite (fl_eq x H0), Qred_correct.
  assert (Hm : round_half_even (x / pow2 (fl_exp x)) <= 0).
  { apply round_half_even_le. apply Qle_shift_div_r; [apply pow2_pos|].
    rewrite Qmult_0_l. exact H. }
  pose proof (pow2_pos (fl_exp x)).
  set (m := round_half_even _) in *. rewrite Zle_Qle in Hm.
  change (inject_Z 0) with 0%Q in Hm. nra.
Qed.

(** The significand of a non-zero [x] is below 2^53 in magnitude before
    rounding; at a normal exponent it is at least 2^52. *)
Lemma fl_scaled_upper (x : Q) : ~ (x == 0)%Q ->
  (Qabs x / pow2 (fl_exp x) < inject_Z (2 ^ 53))%Q.
Proof.
  intros Hx. destruct (qlog2_spec x Hx) as [_ Hhi].
  apply Qlt_shift_div_r; [apply pow2_pos|].
  rewrite <- pow2_Z by lia. rewrite <- pow2_add.
  eapply Qlt_le_trans; [exact Hhi|]. apply pow2_le. unfold fl_exp. lia.
Qed.

Lemma fl_scaled_lower (x : Q) : ~ (x == 0)%Q -> fl_exp x = qlog2 x - 52 ->
  (inject_Z (2 ^ 52) <= Qabs x / pow2 (fl_exp x))%Q.
Proof.
  intros Hx He. destruct (qlog2_spec x Hx) as [Hlo _].
  apply Qle_shift_div_l; [apply pow2_pos|].
  rewrite <- pow2_Z by lia. rewrite <- pow2_add. rewrite He.
  replace (52 + (qlog2 x - 52)) with (qlog2 x) by ring. exact Hlo.
Qed.

Lemma fl_exp_mono (x y : Q) : (0 < x)%Q -> (x <= y)%Q -> fl_exp x <= fl_exp y.
Proof.
  intros Hx Hxy.
  assert (Hx0 : ~ (x == 0)%Q) by (intros E; rewrite E in Hx; discriminate).
  assert (Hy0 : ~ (y == 0)%Q) by (intros E; rewrite E in Hxy; lra).
  destruct (qlog2_spec x Hx0) as [Hx1 _]. destruct (qlog2_spec y Hy0) as [_ Hy2].
  rewrite Qabs_pos in Hx1 by lra. rewrite Qabs_pos in Hy2 by lra.
  assert (qlog2 x < qlog2 y + 1).
  { apply pow2_lt_inv. eapply Qle_lt_trans; [exact Hx1|]. eapply Qle_lt_trans; eassumption. }
  unfold fl_exp. lia.
Qed.

Lemma fl_mono_pos (x y : Q) : (0 < x)%Q -> (x <= y)%Q -> (fl x <= fl y)%Q.
Proof.
  intros Hx Hxy.
  assert (Hx0 : ~ (x == 0)%Q) by (intros E; rewrite E in Hx; discriminate).
  assert (Hy0 : ~ (y == 0)%Q) by (intros E; rewrite E in Hxy; lra).
  pose proof (fl_exp_mono x y Hx Hxy) as He.
  rewrite (fl_eq x Hx0), (fl_eq y Hy0), !Qred_correct.
  set (ex := fl_exp x) in *. set (ey := fl_exp y) in *.
  destruct (Z.eq_dec ex ey) as [Heq|Hne].
  - rewrite <- Heq. apply Qmult_le_compat_r; [|apply Qlt_le_weak, pow2_pos].
    rewrite <- Zle_Qle. apply round_half_even_mono.
    apply Qmult_le_compat_r; [exact Hxy|]. apply Qlt_le_weak, Qinv_lt_0_compat, pow2_pos.
  - assert (Hey : ey = qlog2 y - 52) by (subst ey ex; unfold fl_exp in *; lia).
    pose proof (fl_scaled_lower y Hy0 Hey) as Hyl. fold ey in Hyl.
    pose proof (fl_scaled_upper x Hx0) as Hxu. fold ex in Hxu.
    rewrite Qabs_pos in Hyl by lra. rewrite Qabs_pos in Hxu by lra.
    apply round_half_even_ge in Hyl. apply Qlt_le_weak, round_half_even_le in Hxu.
    rewrite Zle_Qle in Hyl, Hxu.
    apply Qle_trans with (inject_Z (2 ^ 53) * pow2 ex)%Q.
    { apply Qmult_le_compat_r; [exact Hxu | apply Qlt_le_weak, pow2_pos]. }
    apply Qle_trans with (inject_Z (2 ^ 52) * pow2 ey)%Q.
    2: { apply Qmult_le_compat_r; [exact Hyl | apply Qlt_le_weak, pow2_pos]. }
    rewrite <- !pow2_Z by lia. rewrite <- !pow2_add. apply pow2_le. lia.
Qed.

Lemma fl_mono (x y : Q) : (x <= y)%Q -> (0 <= y)%Q -> (fl x <= fl y)%Q.
Proof.
  intros Hxy Hy. destruct (Qlt_le_dec 0 x) as [Hx|Hx].
  - apply fl_mono_pos; assumption.
  - apply Qle_trans with 0%Q; [apply fl_nonpos, Hx | apply fl_nonneg, Hy].
Qed.

(** A double is its own rounding. *)
Lemma fl_fl (x : Q) : (0 <= x)%Q -> fl (fl x) = fl x.
Proof.
  intros Hx. destruct (Qeq_dec x 0) as [H0|H0].
  { rewrite (fl_zero x H0). reflexivity. }
  assert (Hxp : (0 < x)%Q) by (apply Qle_lteq in Hx as [Hx|Hx]; [exact Hx | symmetry in Hx; contradiction]).
  pose proof (fl_eq x H0) as Efl.
  set (e := fl_exp x) in *. set (m := round_half_even (x / pow2 e)) in *.
  assert (Hy : (fl x == inject_Z m * pow2 e)%Q) by (rewrite Efl; apply Qred_correct).
  assert (Hm0 : 0 <= m) by (apply round_half_even_ge, div_pow2_nonneg, Hx).
  assert (Hm1 : m <= 2 ^ 53).
  { apply round_half_even_le, Qlt_le_weak.
    pose proof (fl_scaled_upper x H0) as H. rewrite Qabs_pos in H by exact Hx. exact H. }
  destruct (Z.eq_dec m 0) as [Hm|Hm].
  { assert (E : fl x = 0%Q).
    { rewrite Efl. fold m. rewrite Hm. transitivity (Qred 0); [|reflexivity].
      apply Qred_complete. rewrite Qmult_0_l. reflexivity. }
    rewrite E. reflexivity. }
  assert (Hyp : (0 < fl x)%Q).
  { rewrite Hy. apply Qmult_lt_0_compat; [|apply pow2_pos].
    change 0%Q with (inject_Z 0). rewrite <- Zlt_Qlt. lia. }
  assert (Hy0 : ~ (fl x == 0)%Q) by (intros E; rewrite E in Hyp; discriminate).
  (* the scaled value at the exponent of [fl x] is an integer *)
  assert (Hn : exists n, (fl x / pow2 (fl_exp (fl x)) == inject_Z n)%Q).
  { set (e' := fl_exp (fl x)).
    destruct (Z_le_gt_dec e' e) as [Hle|Hgt].
    - exists (m * 2 ^ (e - e')). rewrite Hy, inject_Z_mult, <- pow2_Z by lia.
      assert (E : (pow2 e == pow2 (e - e') * pow2 e')%Q)
        by (rewrite <- pow2_add; replace (e - e' + e') with e by ring; reflexivity).
      rewrite E. field. apply Qnot_eq_sym, Qlt_not_eq, pow2_pos.
    - (* the exponent grows only when the significand is exactly 2^53 *)
      assert (He' : e' = qlog2 (fl x) - 52) by (subst e'; unfold fl_exp in *; lia).
      destruct (qlog2_spec (fl x) Hy0) as [Hlo _].
      rewrite Qabs_pos in Hlo by lra.
      assert (Hup : (fl x <= pow2 (e + 53))%Q).
      { assert (E53 : (pow2 (e + 53) == inject_Z (2 ^ 53) * pow2 e)%Q)
          by (rewrite <- (pow2_Z 53) by lia; rewrite <- pow2_add;
              replace (53 + e) with (e + 53) by ring; reflexivity).
        rewrite Hy, E53. apply Qmult_le_compat_r.
        - rewrite <- Zle_Qle. exact Hm1.
        - apply Qlt_le_weak, pow2_pos. }
      assert (Hk : qlog2 (fl x) <= e + 53) by (apply pow2_le_inv; lra).
      assert (Ee' : e' = e + 1) by lia.
      assert (Ey : (fl x == pow2 (e + 53))%Q).
      { apply Qle_antisym; [exact Hup|].
        replace (e + 53) with (qlog2 (fl x)) by lia. exact Hlo. }
      exists (2 ^ 52). rewrite Ey, Ee', <- pow2_Z by lia.
      assert (E : (pow2 (e + 53) == pow2 52 * pow2 (e + 1))%Q)
        by (rewrite <- pow2_add; replace (52 + (e + 1)) with (e + 53) by ring; reflexivity).
      rewrite E. field. apply Qnot_eq_sym, Qlt_not_eq, pow2_pos. }
  destruct Hn as [n Hn].
  rewrite (fl_eq (fl x) Hy0). rewrite (round_half_even_compat _ _ Hn), round_half_even_Z.
  transitivity (Qred (fl x)).
  - apply Qred_complete. rewrite <- Hn. field. apply Qnot_eq_sym, Qlt_not_eq, pow2_pos.
  - rewrite Efl at 2. apply Qred_complete. exact Hy.
Qed.

Lemma inject_Z_le (a b : Z) : a <= b -> (inject_Z a <= inject_Z b)%Q.
Proof. intros H. rewrite Zle_Qle in H. exact H. Qed.

Lemma Qminus_0_r_eq (q : Q) : (q - 0)%Q = q.
Proof.
  destruct q as [n d]. unfold Qminus, Qplus, Qopp; simpl.
  f_equal; [lia | apply Pos.mul_1_r].
Qed.

Lemma py_max_0_bounds (x hi : Q) :
  (x <= hi)%Q -> (0 <= hi)%Q -> (0 <= py_max 0 x <= hi)%Q.
Proof.
  intros Hx Hhi. unfold py_max.
  destruct (Qle_bool x 0) eqn:E.
  - split; [apply Qle_refl | exact Hhi].
  - apply not_true_iff_false in E. rewrite Qle_bool_iff in E.
    apply Qnot_le_lt in E. split; [apply Qlt_le_weak, E | exact Hx].
Qed.

Lemma py_max_0_pos (x : Q) : (0 < x)%Q -> py_max 0 x = x.
Proof.
  intros Hx. unfold py_max.
  destruct (Qle_bool x 0) eqn:E; [|reflexivity].
  apply Qle_bool_iff in E. exfalso. apply (Qlt_not_le _ _ Hx E).
Qed.

Lemma round_half_even_bounds (x : Q) :
  (0 <= x <= 1000)%Q -> 0 <= round_half_even x <= 1000.
Proof.
  intros [H0 H1]. unfold round_half_even.
  pose proof (Qfloor_le x) as Hf. pose proof (Qlt_floor x) as Hc.
  rewrite inject_Z_plus in Hc. change (inject_Z 1) with 1%Q in Hc.
  set (fl := Qfloor x) in *.
  assert (Hlo : -1 < fl).
  { rewrite Zlt_Qlt. change (inject_Z (-1)) with (-1 # 1)%Q. lra. }
  assert (Hhi : fl <= 1000).
  { rewrite Zle_Qle. change (inject_Z 1000) with (1000 # 1)%Q. lra. }
  destruct (Qle_bool (x - inject_Z fl) (1 # 2)) eqn:E1; simpl.
  - destruct (Qeq_bool (x - inject_Z fl) (1 # 2)) eqn:E2; [|lia].
    apply Qeq_bool_iff in E2.
    assert (Hhi' : fl < 1000).
    { rewrite Zlt_Qlt. change (inject_Z 1000) with (1000 # 1)%Q. lra. }
    destruct (Z.even fl); lia.
  - apply not_true_iff_false in E1. rewrite Qle_bool_iff in E1.
    apply Qnot_le_lt in E1.
    assert (Hhi' : fl < 1000).
    { rewrite Zlt_Qlt. change (inject_Z 1000) with (1000 # 1)%Q. lra. }
    lia.
Qed.

Lemma round1_bounds (q : Q) : (0 <= q <= 100)%Q -> (0 <= round1 q <= 100)%Q.
Proof.
  intros [H0 H1]. unfold round1.
  assert (Hr : 0 <= round_half_even (q * 10) <= 1000).
  { apply round_half_even_bounds. lra. }
  unfold Qle; simpl. lia.
Qed.

Lemma fold_add_bounds (l : list Z) (acc : Z) :
  Forall (fun x => 0 <= x <= 100) l ->
  acc <= fold_left Z.add l acc <= acc + 100 * Z.of_nat (length l).
Proof.
  intros Hl. revert acc. induction Hl as [|x l Hx Hl IH]; intros acc; simpl.
  - lia.
  - specialize (IH (acc + x)). lia.
Qed.

Lemma mean_bounds (l : list Z) :
  l <> [] -> Forall (fun x => 0 <= x <= 100) l -> (0 <= mean l <= 100)%Q.
Proof.
  intros Hne Hl. pose proof (fold_add_bounds l 0 Hl) as Hs.
  unfold mean, sum_Z in *. destruct l as [|x l']; [congruence|].
  set (S := fold_left Z.add (x :: l') 0) in *.
  assert (Hp : Z.of_nat (length (x :: l')) = Zpos (Pos.of_succ_nat (length l')))
    by reflexivity.
  rewrite Hp in *. unfold Qdiv, Qle; simpl. lia.
Qed.

Lemma fold_add_nonneg (l : list Z) (acc : Z) :
  Forall (fun x => 0 <= x) l -> acc <= fold_left Z.add l acc.
Proof.
  intros Hl. revert acc. induction Hl as [|x l Hx Hl IH]; intros acc; simpl.
  - lia.
  - specialize (IH (acc + x)). lia.
Qed.

Lemma mean_nonneg (l : list Z) :
  l <> [] -> Forall (fun x => 0 <= x) l -> (0 <= mean l)%Q.
Proof.
  intros Hne Hl. pose proof (fold_add_nonneg l 0 Hl) as Hs.
  unfold mean, sum_Z in *. destruct l as [|x l']; [congruence|].
  set (S := fold_left Z.add (x :: l') 0) in *.
  assert (Hp : Z.of_nat (length (x :: l')) = Zpos (Pos.of_succ_nat (length l')))
    by reflexivity.
  rewrite Hp in *. unfold Qdiv, Qle; simpl. lia.
Qed.

(** Concrete float facts, decided by evaluation. *)
Ltac qle_eval := apply Qle_bool_imp_le; vm_compute; reflexivity.

Lemma fl_100 : fl 100 = 100%Q.
Proof. vm_compute. reflexivity. Qed.

Lemma fl_le_100 (x : Q) : (x <= 100)%Q -> (fl x <= 100)%Q.
Proof. intros H. apply Qle_trans with (fl 100); [apply fl_mono; [exact H | discriminate] | rewrite fl_100; apply Qle_refl]. Qed.

Lemma fl_inject_Z_0 : fl (inject_Z 0) = 0%Q.
Proof. reflexivity. Qed.

Lemma round1_nonneg (q : Q) : (0 <= q)%Q -> (0 <= round1 q)%Q.
Proof.
  intros H. unfold round1.
  assert (Hr : 0 <= round_half_even (q * 10)).
  { apply round_half_even_ge. change (inject_Z 0) with 0%Q. lra. }
  unfold Qle; simpl. lia.
Qed.

Lemma round1_mono (x y : Q) : (x <= y)%Q -> (round1 x <= round1 y)%Q.
Proof.
  intros H. unfold round1.
  assert (Hr : round_half_even (x * 10) <= round_half_even (y * 10)).
  { apply round_half_even_mono. apply Qmult_le_compat_r; [exact H | discriminate]. }
  unfold Qle; simpl. lia.
Qed.

Lemma round1f_bounds (q : Q) : (0 <= q <= 100)%Q -> (0 <= round1f q <= 100)%Q.
Proof.
  intros Hq. pose proof (round1_bounds q Hq) as [H0 H1]. unfold round1f. split.
  - apply fl_nonneg, H0.
  - rewrite <- fl_100. apply fl_mono; [exact H1 | discriminate].
Qed.

Lemma round1f_mono (x y : Q) : (x <= y)%Q -> (0 <= y)%Q -> (round1f x <= round1f y)%Q.
Proof.
  intros H Hy. unfold round1f. apply fl_mono; [apply round1_mono, H | apply round1_nonneg, Hy].
Qed.

Lemma py_max_0_mono (x y : Q) : (x <= y)%Q -> (py_max 0 x <= py_max 0 y)%Q.
Proof.
  intros H. unfold py_max.
  destruct (Qle_bool x 0) eqn:E1, (Qle_bool y 0) eqn:E2.
  - apply Qle_refl.
  - apply not_true_iff_false in E2. rewrite Qle_bool_iff in E2.
    apply Qnot_le_lt in E2. lra.
  - apply not_true_iff_false in E1. rewrite Qle_bool_iff in E1.
    apply Qnot_le_lt in E1. apply Qle_bool_iff in E2. lra.
  - exact H.
Qed.

Lemma py_max_0_nonpos (x : Q) : (x <= 0)%Q -> py_max 0 x = 0%Q.
Proof.
  intros H. unfold py_max. apply Qle_bool_iff in H. rewrite H. reflexivity.
Qed.

Lemma py_max_0_nonneg (x : Q) : (0 <= py_max 0 x)%Q.
Proof.
  unfold py_max. destruct (Qle_bool x 0) eqn:E; [apply Qle_refl|].
  apply not_true_iff_false in E. rewrite Qle_bool_iff in E. lra.
Qed.

Lemma py_max_0_fl_mono (x y : Q) : (x <= y)%Q -> (py_max 0 (fl x) <= py_max 0 (fl y))%Q.
Proof.
  intros H. destruct (Qlt_le_dec 0 y) as [Hy|Hy].
  - apply py_max_0_mono, fl_mono; lra.
  - rewrite !py_max_0_nonpos; [apply Qle_refl | apply fl_nonpos; lra | apply fl_nonpos; lra].
Qed.

(** A non-negative double less a zero penalty. *)
Lemma final_zero_penalty (b : Q) : fl b = b -> (0 < b)%Q ->
  py_max 0 (fl (b - fl (inject_Z 0))) = b.
Proof.
  intros Hb Hpos. rewrite fl_inject_Z_0.
  rewrite (fl_compat (b - 0) b) by ring. rewrite Hb. apply py_max_0_pos, Hpos.
Qed.

(** Python treats an empty stats dict as no stats; with no penalty for the
    empty dict both give the base score. *)
Lemma truthy_final (pen : gmap string Z -> Z) (b : Q) (d : gmap string Z) :
  pen ∅ = 0 -> fl b = b -> (0 < b)%Q ->
  match truthy (Some d) with
  | Some st => py_max 0 (fl (b - fl (inject_Z (pen st))))
  | None => b
  end = py_max 0 (fl (b - fl (inject_Z (pen d)))).
Proof.
  intros Hpen Hb Hpos. unfold truthy.
  destruct (decide (d = ∅)) as [->|Hd]; [|reflexivity].
  rewrite Hpen. symmetry. apply final_zero_penalty; assumption.
Qed.

Lemma mean_fl_bounds (l : list Z) :
  l <> [] -> Forall (fun x => 0 <= x <= 100) l -> (0 <= fl (mean l) <= 100)%Q.
Proof.
  intros Hne Hl. pose proof (mean_bounds l Hne Hl) as [H0 H1]. split.
  - apply fl_nonneg, H0.
  - rewrite <- fl_100. apply fl_mono; [exact H1 | discriminate].
Qed.

Lemma py_int_truediv_mean (l : list Z) :
  l <> [] -> Forall (fun x => 0 <= x) l ->
  (0 <= fl (mean l))%Q /\
  py_int_truediv (sum_Z l) (Z.of_nat (length l)) =
  if Qle_bool (pow2 1024) (fl (mean l)) then None else Some (fl (mean l)).
Proof.
  intros Hne Hl. pose proof (fl_nonneg _ (mean_nonneg l Hne Hl)) as H0.
  split; [exact H0|]. unfold py_int_truediv.
  rewrite (proj2 (Z.eqb_neq _ 0)) by (destruct l; simpl; [congruence | lia]).
  rewrite Qabs_pos by exact H0. reflexivity.
Qed.

Lemma technical_average_cases (scores : list Z) :
  Forall (fun x => 0 <= x) scores ->
  let avg := match scores with [] => 50%Q | l => fl (mean l) end in
  (0 <= avg)%Q /\
  technical_average scores = if Qle_bool (pow2 1024) avg then None else Some avg.
Proof.
  intros H. cbv zeta. destruct scores as [|x l].
  - split; [qle_eval | reflexivity].
  - apply py_int_truediv_mean; [congruence | exact H].
Qed.

Lemma technical_average_bounds (scores : list Z) :
  Forall (fun x => 0 <= x <= 100) scores ->
  exists avg, technical_average scores = Some avg /\ (0 <= avg <= 100)%Q.
Proof.
  intros H.
  assert (H' : Forall (fun x => 0 <= x) scores) by (eapply Forall_impl; [exact H|]; simpl; intros x Hx; lia).
  destruct (technical_average_cases scores H') as [_ E]. cbv zeta in E.
  assert (Hb : (0 <= match scores with [] => 50%Q | l => fl (mean l) end <= 100)%Q).
  { destruct scores as [|x l]; [split; qle_eval | apply mean_fl_bounds; [congruence | exact H]]. }
  set (avg := match scores with [] => 50%Q | l => fl (mean l) end) in *.
  destruct (Qle_bool (pow2 1024) avg) eqn:Eb.
  - exfalso. apply Qle_bool_iff in Eb.
    assert (Hp : (100 < pow2 1024)%Q) by (vm_compute; reflexivity). lra.
  - exists avg. split; [exact E | exact Hb].
Qed.

(** The final evaluation of [InterviewManager], field by field. *)
Lemma calculate_final_evaluation_none (s : session) (p : option (gmap string Z)) :
  technical_average (technical_scores s) = None -> calculate_final_evaluation s p = None.
Proof.
  unfold calculate_final_evaluation, technical_average.
  destruct (technical_scores s) as [|x l]; intros H; [discriminate | rewrite H; reflexivity].
Qed.

Lemma calculate_final_evaluation_some (s : session) (p : option (gmap string Z)) (avg : Q) :
  technical_average (technical_scores s) = Some avg ->
  exists ev, calculate_final_evaluation s p = Some ev /\
    level_score ev = level_weights (current_level (tracker_of s)) /\
    technical_score ev = round1f avg /\
    base_score ev = round1f (base_of s avg) /\
    overall_score ev =
      round1f (match truthy p with
               | Some st =>
                   py_max 0 (fl (base_of s avg
                                 - fl (inject_Z (_calculate_proctoring_penalty st))))
               | None => base_of s avg
               end).
Proof.
  unfold calculate_final_evaluation, technical_average.
  destruct (technical_scores s) as [|x l]; intros H; [injection H as <- | rewrite H];
    destruct (truthy p); eexists; (split; [reflexivity|]); repeat split.
Qed.

Lemma level_part_bounds (l : level) :
  (18 <= fl (inject_Z (level_weights l) * f0_6) <= 60)%Q.
Proof. destruct l; split; qle_eval. Qed.

Lemma base_of_bounds (s : session) (avg : Q) :
  (0 <= avg)%Q ->
  (18 <= fl (inject_Z (level_weights (current_level (tracker_of s))) * f0_6)
             + fl (avg * f0_4))%Q /\
  (0 < base_of s avg)%Q /\ fl (base_of s avg) = base_of s avg /\
  ((avg <= 100)%Q -> (base_of s avg <= 100)%Q).
Proof.
  intros Ha.
  pose proof (level_part_bounds (current_level (tracker_of s))) as [Hl1 Hl2].
  assert (Hf4 : (0 < f0_4)%Q) by (vm_compute; reflexivity).
  assert (Ht : (0 <= fl (avg * f0_4))%Q) by (apply fl_nonneg; nra).
  set (A := fl (inject_Z (level_weights (current_level (tracker_of s))) * f0_6)) in *.
  assert (H18 : (18 <= A + fl (avg * f0_4))%Q) by lra.
  split; [exact H18|]. unfold base_of. fold A.
  split; [|split].
  - apply Qlt_le_trans with (fl 18); [vm_compute; reflexivity|].
    apply fl_mono; lra.
  - apply fl_fl. lra.
  - intros Ha'.
    assert (Ht' : (fl (avg * f0_4) <= 40)%Q).
    { apply Qle_trans with (fl (100 * f0_4)); [|qle_eval].
      apply fl_mono; [|qle_eval]. apply Qmult_le_compat_r; lra. }
    apply fl_le_100. lra.
Qed.

Lemma _calculate_proctoring_penalty_empty : _calculate_proctoring_penalty ∅ = 0.
Proof. reflexivity. Qed.

Lemma calculate_proctoring_penalty_empty : calculate_proctoring_penalty ∅ = 0.
Proof. reflexivity. Qed.

(** ** C5 *)

(** C5: for a session whose recorded technical scores are non-negative (as
    every recorded score is), [calculate_final_evaluation] reports
    [level_score] from the table easy 30, medium 70, hard 100; the technical
    score as the mean of the recorded scores (the float quotient
    [sum / len]), or 50 when there are none; [base_score = level_score*0.6 +
    technical*0.4] and [overall_score = max(0, base_score - penalty)] when
    proctoring stats are passed, [base_score] when they are not, each in
    float arithmetic; every reported value rounded with [round(x, 1)]. The
    call raises exactly when the mean is too large for a float. The rounding
    is that of the binary value: eight scores 0, ..., 0, 1 at level easy
    give a base score of 18.05 in decimal but 18.050000000000000710... as a
    double, reported as 18.1. *)
Theorem calculate_final_evaluation_spec (s : session)
  (proctoring_stats : option (gmap string Z)) :
  Forall (fun x => 0 <= x) (technical_scores s) ->
  let ls := match current_level (tracker_of s) with
            | easy => 30 | medium => 70 | hard => 100 end in
  let avg := match technical_scores s with
             | [] => 50%Q
             | l => fl (inject_Z (sum_Z l) / inject_Z (Z.of_nat (length l)))
             end in
  let base := fl (fl (inject_Z ls * fl (6 # 10)) + fl (avg * fl (4 # 10))) in
  match calculate_final_evaluation s proctoring_stats with
  | None => (pow2 1024 <= avg)%Q
  | Some ev =>
      (avg < pow2 1024)%Q /\
      level_score ev = ls /\
      technical_score ev = round1f avg /\
      base_score ev = round1f base /\
      overall_score ev =
        round1f (match proctoring_stats with
                 | Some d =>
                     py_max 0 (fl (base - fl (inject_Z (_calculate_proctoring_penalty d))))
                 | None => base
                 end)
  end /\
  option_map base_score
    (calculate_final_evaluation (mk_session init_tracker [0; 0; 0; 0; 0; 0; 0; 1]) None)
  = Some (fl (181 # 10)).
Proof.
  intros Hs ls avg base. split; [|vm_compute; reflexivity].
  destruct (technical_average_cases _ Hs) as [H0 E].
  assert (Eavg : match technical_scores s with
                 | [] => 50%Q | _ => fl (mean (technical_scores s)) end = avg)
    by (subst avg; destruct (technical_scores s); reflexivity).
  rewrite Eavg in H0, E.
  assert (Hls : level_weights (current_level (tracker_of s)) = ls)
    by (subst ls; destruct (current_level (tracker_of s)); reflexivity).
  assert (Hbase : base_of s avg = base) by (unfold base_of; rewrite Hls; reflexivity).
  destruct (Qle_bool (pow2 1024) avg) eqn:Eb.
  - rewrite (calculate_final_evaluation_none s proctoring_stats E).
    apply Qle_bool_iff, Eb.
  - destruct (calculate_final_evaluation_some s proctoring_stats avg E)
      as [ev [-> [H1 [H2 [H3 H4]]]]].
    rewrite Hbase in H3, H4. rewrite <- Hls.
    split; [apply Qnot_le_lt; intros Hc; apply Qle_bool_iff in Hc; congruence|].
    split; [exact H1|]. split; [exact H2|]. split; [exact H3|].
    rewrite H4. f_equal.
    destruct (base_of_bounds s avg H0) as [_ [Hpos [Hfl _]]]. rewrite Hbase in Hpos, Hfl.
    destruct proctoring_stats as [d|]; [|reflexivity].
    apply (truthy_final _calculate_proctoring_penalty base d);
      [apply _calculate_proctoring_penalty_empty | exact Hfl | exact Hpos].
Qed.

Lemma calculate_final_evaluation_spec_witness :
  Forall (fun x => 0 <= x) (technical_scores (mk_session init_tracker [75; 40])) /\
  exists ev,
    calculate_final_evaluation (mk_session init_tracker [75; 40]) (Some ∅) = Some ev /\
    level_score ev = 30.
Proof.
  assert (H : Forall (fun x => 0 <= x)
                (technical_scores (mk_session init_tracker [75; 40])))
    by (repeat constructor; simpl; lia).
  split; [exact H|].
  pose proof (proj1 (calculate_final_evaluation_spec
                       (mk_session init_tracker [75; 40]) (Some ∅) H)) as P.
  revert P. cbv zeta.
  destruct (calculate_final_evaluation (mk_session init_tracker [75; 40]) (Some ∅))
    as [ev|]; intros P.
  - exists ev. split; [reflexivity | exact (proj1 (proj2 P))].
  - exfalso. revert P. apply Qlt_not_le. vm_compute. reflexivity.
Defined.

(** ** C6 *)

Lemma evaluate_answer_quality_range (answer question : string)
  (r : outcome string) :
  0 <= evaluate_answer_quality answer question r <= 100.
Proof.
  destruct r as [response|]; simpl.
  - destruct (find_number (strip response)); [lia|].
    destruct (_ && _); lia.
  - destruct (_ <? _)%nat; lia.
Qed.

Lemma reachable_scores_range (s : session) :
  reachable s -> Forall (fun x => 0 <= x <= 100) (technical_scores s).
Proof.
  induction 1 as [|s question answer r Hr IH].
  - constructor.
  - unfold process_answer.
    destruct (determine_next_level (tracker_of s)
                (evaluate_answer_quality answer question r)) as [l t'].
    simpl. apply Forall_app. split; [exact IH|].
    constructor; [apply evaluate_answer_quality_range | constructor].
Qed.

(** C6: in every session reachable from the start by answered turns, and
    for every proctoring-stats dict with non-negative counts (or none),
    [calculate_final_evaluation] returns (it does not raise) and the
    reported [overall_score] lies in [[0, 100]]. *)
Theorem overall_score_bounds (s : session)
  (proctoring_stats : option (gmap string Z)) :
  reachable s ->
  match proctoring_stats with Some d => counts_nonneg d | None => True end ->
  exists ev, calculate_final_evaluation s proctoring_stats = Some ev /\
    (0 <= overall_score ev <= 100)%Q.
Proof.
  intros Hr Hd.
  destruct (technical_average_bounds _ (reachable_scores_range s Hr)) as [avg [Ea Havg]].
  destruct (calculate_final_evaluation_some s proctoring_stats avg Ea)
    as [ev [Eev [_ [_ [_ Hov]]]]].
  exists ev. split; [exact Eev|]. rewrite Hov.
  destruct (base_of_bounds s avg (proj1 Havg)) as [_ [Hpos [_ Hle]]].
  specialize (Hle (proj2 Havg)).
  apply round1f_bounds.
  destruct (truthy proctoring_stats) as [d|] eqn:Ht.
  - assert (Hd' : counts_nonneg d).
    { destruct proctoring_stats as [d0|]; simpl in Ht; [|discriminate].
      destruct (decide (d0 = ∅)); [discriminate|]. injection Ht as <-. exact Hd. }
    pose proof (_calculate_proctoring_penalty_formula d Hd') as Hf.
    pose proof (penalty_formula_range d Hd') as Hp.
    rewrite <- Hf in Hp.
    assert (Hpq : (0 <= fl (inject_Z (_calculate_proctoring_penalty d)))%Q).
    { apply fl_nonneg. change 0%Q with (inject_Z 0). apply inject_Z_le. lia. }
    apply py_max_0_bounds; [|discriminate].
    apply fl_le_100. lra.
  - lra.
Qed.

Lemma overall_score_bounds_witness :
  exists ev,
    calculate_final_evaluation
      (process_answer init_session "q" "a" (Returned "85"))
      (Some {[ "tab_switch_count" := 3%Z ]}) = Some ev /\
    (0 <= overall_score ev <= 100)%Q.
Proof.
  apply overall_score_bounds.
  - apply reach_answer, reach_init.
  - unfold counts_nonneg. apply map_Forall_singleton. lia.
Defined.

(** ** C8 *)

Lemma ledger_of_fold (entries : list (Z * string)) (sd : scoring_data) :
  let sd' := fold_left (fun sd e => add_question_score sd (fst e) (snd e)) entries sd in
  scores_technical sd' = scores_technical sd ++ map fst entries /\
  length (questions sd') = (length (questions sd) + length entries)%nat.
Proof.
  revert sd. induction entries as [|e rest IH]; intros sd; simpl.
  - rewrite app_nil_r. split; [reflexivity | lia].
  - destruct (IH (add_question_score sd (fst e) (snd e))) as [H1 H2].
    simpl in H1, H2. rewrite H1, <- app_assoc, H2, length_app. simpl.
    split; [reflexivity | lia].
Qed.

Lemma ledger_of_technical (entries : list (Z * string)) :
  scores_technical (ledger_of entries) = map fst entries.
Proof. apply (ledger_of_fold entries initialize_scoring). Qed.

Lemma ledger_of_questions_length (entries : list (Z * string)) :
  length (questions (ledger_of entries)) = length entries.
Proof. apply (ledger_of_fold entries initialize_scoring). Qed.

Lemma mean_map_nonneg (entries : list (Z * string)) :
  entries <> [] -> Forall (fun e => 0 <= fst e) entries ->
  (0 <= mean (map fst entries))%Q.
Proof.
  intros Hne H. apply mean_nonneg.
  - destruct entries; simpl; congruence.
  - apply Forall_map. exact H.
Qed.

Lemma ledger_average (entries : list (Z * string)) :
  entries <> [] -> Forall (fun e => 0 <= fst e) entries ->
  (0 <= fl (mean (map fst entries)))%Q /\
  calculate_current_average (ledger_of entries) =
  if Qle_bool (pow2 1024) (fl (mean (map fst entries))) then None
  else Some (fl (mean (map fst entries))).
Proof.
  intros Hne H. unfold calculate_current_average. rewrite ledger_of_technical.
  assert (Hm : map fst entries <> []) by (destruct entries; simpl; congruence).
  destruct (py_int_truediv_mean (map fst entries) Hm) as [H0 E];
    [apply Forall_map, H|].
  split; [exact H0|]. rewrite <- E. destruct (map fst entries); [congruence | reflexivity].
Qed.

Lemma ledger_nonempty (entries : list (Z * string)) :
  entries <> [] -> questions (ledger_of entries) <> [].
Proof.
  intros Hne Hq. pose proof (ledger_of_questions_length entries) as Hl.
  rewrite Hq in Hl. destruct entries; simpl in Hl; congruence.
Qed.

(** The final evaluation of [ScoringService] on a non-empty ledger. *)
Lemma ss_calculate_final_evaluation_none (sd : scoring_data) (final_level : string)
  (p : option (gmap string Z)) :
  questions sd <> [] -> calculate_current_average sd = None ->
  ss_calculate_final_evaluation sd final_level p = None.
Proof.
  intros Hq H. unfold ss_calculate_final_evaluation. rewrite H.
  destruct (questions sd); [congruence | reflexivity].
Qed.

Lemma ss_calculate_final_evaluation_some (sd : scoring_data) (final_level : string)
  (p : option (gmap string Z)) (avg : Q) :
  questions sd <> [] -> calculate_current_average sd = Some avg ->
  let base := fl (fl (avg * f0_7) + fl (fl (ss_level_weights final_level * 100) * f0_3)) in
  exists ev, ss_calculate_final_evaluation sd final_level p = Some ev /\
    technical_avg ev = round1f avg /\
    total_questions ev = length (questions sd) /\
    ss_overall_score ev =
      round1f (match truthy p with
               | Some st =>
                   py_max 0 (fl (base - fl (inject_Z (calculate_proctoring_penalty st))))
               | None => base
               end).
Proof.
  intros Hq H base. unfold ss_calculate_final_evaluation. rewrite H.
  destruct (questions sd) as [|q qs]; [congruence|].
  destruct (truthy p); eexists; (split; [reflexivity|]); repeat split.
Qed.

Lemma ss_weight_part_bounds (final_level : string) :
  (9 <= fl (fl (ss_level_weights final_level * 100) * f0_3) <= 30)%Q.
Proof.
  unfold ss_level_weights.
  destruct (String.eqb final_level "easy"); [split; qle_eval|].
  destruct (String.eqb final_level "medium"); [split; qle_eval|].
  destruct (String.eqb final_level "hard"); split; qle_eval.
Qed.

Lemma ss_base_bounds (final_level : string) (avg : Q) :
  (0 <= avg)%Q ->
  let base := fl (fl (avg * f0_7) + fl (fl (ss_level_weights final_level * 100) * f0_3)) in
  (0 < base)%Q /\ fl base = base /\ ((avg <= 100)%Q -> (base <= 100)%Q).
Proof.
  intros Ha base.
  pose proof (ss_weight_part_bounds final_level) as [Hw1 Hw2].
  assert (Hf7 : (0 < f0_7)%Q) by (vm_compute; reflexivity).
  assert (Ht : (0 <= fl (avg * f0_7))%Q) by (apply fl_nonneg; nra).
  set (W := fl (fl (ss_level_weights final_level * 100) * f0_3)) in *.
  split; [|split].
  - apply Qlt_le_trans with (fl 9); [vm_compute; reflexivity|]. apply fl_mono; lra.
  - apply fl_fl. lra.
  - intros Ha'.
    assert (Ht' : (fl (avg * f0_7) <= 70)%Q).
    { apply Qle_trans with (fl (100 * f0_7)); [|qle_eval].
      apply fl_mono; [|qle_eval]. apply Qmult_le_compat_r; lra. }
    subst base. apply fl_le_100. lra.
Qed.

(** C8: for every non-empty ledger built by [add_question_score] (scores
    non-negative, as the data model's 0-100 scores are),
    [ScoringService.calculate_final_evaluation] uses the level weights
    easy 0.3, medium 0.6, hard 1.0 and 0.3 for any other level string;
    [base_score = technical_avg*0.7 + level_weight*100*0.3] with
    [technical_avg] the mean of the ledger's scores (the float quotient
    [sum / len]); [overall_score = max(0, base_score - penalty)] when
    proctoring stats are passed and [base_score] otherwise, each in float
    arithmetic and rounded with [round(x, 1)]; the call raises exactly when
    the mean is too large for a float. This blend differs from the
    interview manager's 60/40 one: one score of 50 at level easy gives 44.0
    here and 38.0 there. The rounding is that of the binary value: scores 0
    and 1 at level easy give a base score of 9.35 in decimal but
    9.3499999999999996... as a double, reported as 9.3. *)
Theorem ss_calculate_final_evaluation_spec (entries : list (Z * string))
  (final_level : string) (proctoring_stats : option (gmap string Z)) :
  entries <> [] -> Forall (fun e => 0 <= fst e) entries ->
  let avg := fl (mean (map fst entries)) in
  let base := fl (fl (avg * fl (7 # 10))
                  + fl (fl (ss_level_weights final_level * 100) * fl (3 # 10))) in
  ss_level_weights "easy" = fl (3 # 10) /\ ss_level_weights "medium" = fl (6 # 10) /\
  ss_level_weights "hard" = 1%Q /\
  (final_level <> "easy" -> final_level <> "medium" -> final_level <> "hard" ->
   ss_level_weights final_level = fl (3 # 10)) /\
  match ss_calculate_final_evaluation (ledger_of entries) final_level proctoring_stats with
  | None => (pow2 1024 <= avg)%Q
  | Some ev =>
      (avg < pow2 1024)%Q /\
      technical_avg ev = round1f avg /\
      total_questions ev = length entries /\
      ss_overall_score ev =
        round1f (match proctoring_stats with
                 | Some d =>
                     py_max 0 (fl (base - fl (inject_Z (calculate_proctoring_penalty d))))
                 | None => base
                 end)
  end /\
  option_map ss_overall_score
    (ss_calculate_final_evaluation (ledger_of [(50, "easy")]) "easy" None) = Some 44%Q /\
  option_map overall_score
    (calculate_final_evaluation (mk_session init_tracker [50]) None) = Some 38%Q /\
  option_map ss_overall_score
    (ss_calculate_final_evaluation (ledger_of [(0, "easy"); (1, "easy")]) "easy" None)
  = Some (fl (93 # 10)).
Proof.
  intros Hne Hpos avg base.
  split; [reflexivity|]. split; [reflexivity|]. split; [reflexivity|].
  split.
  { intros H1 H2 H3. unfold ss_level_weights.
    destruct (String.eqb_spec final_level "easy"); [congruence|].
    destruct (String.eqb_spec final_level "medium"); [congruence|].
    destruct (String.eqb_spec final_level "hard"); [congruence|].
    reflexivity. }
  split; [|split; [vm_compute; reflexivity | split; vm_compute; reflexivity]].
  destruct (ledger_average entries Hne Hpos) as [H0 E]. fold avg in H0, E.
  destruct (Qle_bool (pow2 1024) avg) eqn:Eb.
  - rewrite (ss_calculate_final_evaluation_none _ final_level proctoring_stats
               (ledger_nonempty entries Hne) E).
    apply Qle_bool_iff, Eb.
  - destruct (ss_calculate_final_evaluation_some (ledger_of entries) final_level
                proctoring_stats avg (ledger_nonempty entries Hne) E)
      as [ev [-> [H1 [H2 H3]]]].
    split; [apply Qnot_le_lt; intros Hc; apply Qle_bool_iff in Hc; congruence|].
    split; [exact H1|]. split; [rewrite H2; apply ledger_of_questions_length|].
    rewrite H3. f_equal.
    destruct (ss_base_bounds final_level avg H0) as [Hb [Hfl _]]. fold base in Hb, Hfl.
    destruct proctoring_stats as [d|]; [|reflexivity].
    apply (truthy_final calculate_proctoring_penalty base d);
      [apply calculate_proctoring_penalty_empty | exact Hfl | exact Hb].
Qed.

Lemma ss_calculate_final_evaluation_spec_witness :
  ((75, "easy") :: [(80, "medium")]) <> [] /\
  Forall (fun e : Z * string => 0 <= fst e) [(75, "easy"); (80, "medium")] /\
  ss_level_weights "medium" = fl (6 # 10).
Proof.
  assert (H1 : ((75, "easy") :: [(80, "medium")]) <> []) by discriminate.
  assert (H2 : Forall (fun e : Z * string => 0 <= fst e) [(75, "easy"); (80, "medium")])
    by (repeat constructor; simpl; lia).
  split; [exact H1|]. split; [exact H2|].
  exact (proj1 (proj2 (ss_calculate_final_evaluation_spec _ "medium" None H1 H2))).
Defined.

(** ** C10 *)

(** C10: with no scored question, [ScoringService.calculate_final_evaluation]
    returns (it does not raise) overall score 0, technical average 0 and
    empty penalty details for every [final_level] and whatever proctoring
    stats are passed; the interview manager's variant, with no recorded
    score, returns a technical score of 50 and a non-zero base score at
    every level. *)
Theorem ss_empty_ledger_zero :
  (forall (sd : scoring_data) (final_level : string)
          (proctoring_stats : option (gmap string Z)),
     questions sd = [] ->
     ss_calculate_final_evaluation sd final_level proctoring_stats =
       Some {| ss_overall_score := 0; technical_avg := 0;
               ss_final_level := final_level; total_questions := 0;
               ss_penalty_details := NoDetails |}) /\
  (forall (final_level : string) (proctoring_stats : option (gmap string Z)),
     ss_calculate_final_evaluation initialize_scoring final_level proctoring_stats =
       Some {| ss_overall_score := 0; technical_avg := 0;
               ss_final_level := final_level; total_questions := 0;
               ss_penalty_details := NoDetails |}) /\
  (forall (t : tracker) (proctoring_stats : option (gmap string Z)),
     exists ev, calculate_final_evaluation (mk_session t []) proctoring_stats = Some ev /\
       (technical_score ev == 50)%Q /\ ~ (base_score ev == 0)%Q).
Proof.
  split; [|split].
  - intros sd final_level proctoring_stats Hq.
    unfold ss_calculate_final_evaluation. rewrite Hq. reflexivity.
  - intros final_level proctoring_stats. reflexivity.
  - intros t proctoring_stats.
    destruct (calculate_final_evaluation_some (mk_session t []) proctoring_stats 50
                eq_refl) as [ev [E [_ [H1 [H2 _]]]]].
    exists ev. split; [exact E|]. rewrite H1, H2. unfold base_of. cbn [tracker_of].
    destruct (current_level t); vm_compute; (split; [reflexivity | discriminate]).
Qed.

Lemma ss_empty_ledger_zero_witness :
  questions initialize_scoring = [] /\
  option_map ss_overall_score
    (ss_calculate_final_evaluation initialize_scoring "hard"
       (Some {[ "tab_switch_count" := 9 ]})) = Some 0%Q.
Proof.
  assert (H : questions initialize_scoring = []) by reflexivity.
  split; [exact H|].
  rewrite (proj1 ss_empty_ledger_zero initialize_scoring "hard" _ H).
  reflexivity.
Defined.

(** ** C9 *)

Ltac model_cases m :=
  destruct m as [|[text|]]; simpl;
  try (destruct (String.eqb text EmptyString) eqn:?; simpl).

Lemma generate_text_3_shape (model : nat -> model_response) :
  let '(r, evs) := generate_text model 3 in
  (exists str, r = Some str) /\ (attempts evs <= 3)%nat /\ sleeps_fixed evs.
Proof.
  unfold generate_text, attempts, sleeps_fixed. simpl.
  model_cases (model 0%nat);
    try (split; [eauto | split; [simpl; lia | repeat constructor]]).
  model_cases (model 1%nat);
    try (split; [eauto | split; [simpl; lia | repeat constructor]]).
  model_cases (model 2%nat);
    (split; [eauto | split; [simpl; lia | repeat constructor]]).
Qed.

Lemma generate_text_3_failed (model : nat -> model_response) :
  (forall n, failed_call (model n)) -> fst (generate_text model 3) = Some fallback_text.
Proof.
  intros Hf. unfold generate_text. simpl.
  destruct (Hf 0%nat) as [->|[->| ->]]; simpl; try reflexivity.
  destruct (Hf 1%nat) as [->|[->| ->]]; simpl; try reflexivity.
  destruct (Hf 2%nat) as [->|[->| ->]]; simpl; reflexivity.
Qed.

Lemma ask_outcome_failed (model : nat -> model_response) :
  (forall n, failed_call (model n)) -> ask_outcome model = Returned fallback_text.
Proof.
  intros Hf. unfold ask_outcome, ask. rewrite (generate_text_3_failed model Hf).
  reflexivity.
Qed.

Lemma fallback_text_no_markers :
  contains "ANALYSIS:" fallback_text = false /\
  contains "QUESTION:" (strip fallback_text) = false /\
  strip fallback_text = fallback_text /\
  filter (fun line => negb (String.eqb line EmptyString))
         (map strip (split_on nl fallback_text)) = [fallback_text] /\
  String.length fallback_text = 33%nat.
Proof. repeat split; reflexivity. Qed.

Lemma fallback_question_in_pool (job_role : string) (lvl : level) (pick : nat) :
  In (_generate_fallback_question job_role lvl pick) (fallback_questions job_role lvl).
Proof.
  unfold _generate_fallback_question. apply nth_In.
  assert (Hlen : length (fallback_questions job_role lvl) = 3%nat)
    by (destruct lvl; reflexivity).
  rewrite Hlen. apply Nat.mod_upper_bound. lia.
Qed.

(** C9, the skipped-turn path diverges from the fallback design: when
    every model call raises, [get_next_question_without_answer] serves the
    runner's fallback string ["Please continue with your answer."] as the
    next question. That string is in none of the per-level template pools
    of [_generate_fallback_question], which the same function's [except]
    branch and the answered-turn path use for a failed generation. *)
Lemma skip_path_generation_failure_counterexample :
  get_next_question_without_answer "Software Engineer" easy
    (ask_outcome (fun _ => Raises)) 0 = fallback_text /\
  (forall lvl, ~ In fallback_text (fallback_questions "Software Engineer" lvl)).
Proof.
  split; [reflexivity|].
  intros lvl Hin. destruct lvl; vm_compute in Hin;
    repeat (destruct Hin as [Hin|Hin]; [discriminate Hin|]); exact Hin.
Qed.

(** C9, what the code does: with the default [max_retries = 3], for every behaviour
    of the model call [generate_text] makes at most 3 attempts, sleeps a
    fixed 2 seconds between failed ones and always returns a string, the
    fixed ["Please continue with your answer."] when the calls raise or
    give no or empty text; so [ask] never makes its caller fail. When
    generation fails, the answered-turn path
    ([analyze_answer_and_generate_question]) returns a question from the
    per-level fallback pool, while the skipped-turn path
    ([get_next_question_without_answer]) returns the runner's fallback
    string itself as the next question. *)
Theorem generate_text_bounded_fallback :
  (forall model : nat -> model_response,
     let '(r, evs) := generate_text model 3 in
     (exists str, r = Some str) /\ (attempts evs <= 3)%nat /\ sleeps_fixed evs) /\
  (forall model : nat -> model_response,
     (forall n, failed_call (model n)) -> ask model = Some fallback_text) /\
  (forall model : nat -> model_response,
     exists str, ask_outcome model = Returned str) /\
  (forall (job_role : string) (lvl : level) (pick : nat)
          (model : nat -> model_response),
     (forall n, failed_call (model n)) ->
     In (snd (analyze_answer_and_generate_question job_role lvl
                (ask_outcome model) pick))
        (fallback_questions job_role lvl)) /\
  (forall (job_role : string) (lvl : level) (pick : nat)
          (model : nat -> model_response),
     (forall n, failed_call (model n)) ->
     get_next_question_without_answer job_role lvl (ask_outcome model) pick
       = fallback_text).
Proof.
  destruct fallback_text_no_markers as (Ha & Hq & Hs & Hl & Hlen).
  split; [exact generate_text_3_shape|].
  split; [exact generate_text_3_failed|].
  split.
  { intros model. unfold ask_outcome, ask.
    pose proof (generate_text_3_shape model) as Hshape.
    destruct (generate_text model 3) as [r evs].
    destruct Hshape as [[str ->] _]. simpl. eauto. }
  split.
  - intros job_role lvl pick model Hf. rewrite (ask_outcome_failed model Hf).
    unfold analyze_answer_and_generate_question. rewrite Ha. cbn [andb].
    rewrite Hl. simpl. apply fallback_question_in_pool.
  - intros job_role lvl pick model Hf. rewrite (ask_outcome_failed model Hf).
    unfold get_next_question_without_answer. cbv zeta.
    rewrite Hq, Hs, Hlen. reflexivity.
Qed.

Lemma generate_text_bounded_fallback_witness :
  (forall n : nat, failed_call ((fun _ => Raises) n)) /\
  get_next_question_without_answer "Data Scientist" hard
    (ask_outcome (fun _ => Raises)) 2%nat = fallback_text.
Proof.
  assert (H : forall n : nat, failed_call ((fun _ => Raises) n))
    by (intros n; left; reflexivity).
  split; [exact H|].
  exact (proj2 (proj2 (proj2 (proj2 generate_text_bounded_fallback)))
           "Data Scientist" hard 2%nat (fun _ => Raises) H).
Defined.

(* ================================================================== *)
(** * Further properties of the code *)

Lemma dnl_pass t s : 60 <= s -> 0 <= consecutive_correct t ->
  let t' := snd (determine_next_level t s) in
  consecutive_correct t' = consecutive_correct t + 1 /\
  rank (current_level t) <= rank (current_level t') /\
  (1 <= consecutive_correct t -> rank (current_level t') = Z.min (rank (current_level t) + 1) 2).
Proof.
  intros Hs Hc. destruct t as [lv q cc ci p]; simpl in *.
  unfold determine_next_level, should_promote_level, should_demote_level, _change_level.
  assert (E : (60 <=? s) = true) by (apply Z.leb_le; lia). rewrite E. simpl.
  destruct lv; simpl; destruct (2 <=? cc + 1) eqn:E2; simpl; rewrite ?Z.leb_le, ?Z.leb_gt in *; lia.
Qed.

Lemma dnl_direction t s :
  let l' := fst (determine_next_level t s) in
  (60 <= s -> rank (current_level t) <= rank l') /\
  (s < 60 -> rank l' <= rank (current_level t)) /\
  Z.abs (rank l' - rank (current_level t)) <= 1.
Proof.
  destruct t as [lv q cc ci p].
  unfold determine_next_level, should_promote_level, should_demote_level, _change_level.
  simpl. destruct (60 <=? s) eqn:E; rewrite ?Z.leb_le, ?Z.leb_gt in E;
  destruct lv; simpl;
  repeat match goal with |- context [2 <=? ?x] => destruct (2 <=? x); simpl end; lia.
Qed.

Lemma dnl_fail t s : s < 60 -> 0 <= consecutive_incorrect t ->
  let t' := snd (determine_next_level t s) in
  consecutive_incorrect t' = consecutive_incorrect t + 1 /\
  rank (current_level t') <= rank (current_level t) /\
  (1 <= consecutive_incorrect t -> rank (current_level t') = Z.max (rank (current_level t) - 1) 0).
Proof.
  intros Hs Hc. destruct t as [lv q cc ci p]; simpl in *.
  unfold determine_next_level, should_promote_level, should_demote_level, _change_level.
  assert (E : (60 <=? s) = false) by (apply Z.leb_gt; lia). rewrite E. simpl.
  destruct lv; simpl; destruct (2 <=? ci + 1) eqn:E2; simpl; rewrite ?Z.leb_le, ?Z.leb_gt in *; lia.
Qed.

Lemma run_passes_monotone (t : tracker) (l : list Z) :
  Forall (fun s => 60 <= s) l -> 0 <= consecutive_correct t ->
  rank (current_level t) <= rank (current_level (run_scores t l)) /\
  consecutive_correct t <= consecutive_correct (run_scores t l).
Proof.
  intros Hl. revert t. induction Hl as [|s l Hs Hl IH]; intros t Hc; cbn [run_scores]; [lia|].
  destruct (dnl_pass t s Hs Hc) as (H1 & H2 & _).
  cbv zeta in *. destruct (IH (snd (determine_next_level t s)) ltac:(lia)) as [H3 H4]; lia.
Qed.

Lemma run_fails_monotone (t : tracker) (l : list Z) :
  Forall (fun s => s < 60) l -> 0 <= consecutive_incorrect t ->
  rank (current_level (run_scores t l)) <= rank (current_level t) /\
  consecutive_incorrect t <= consecutive_incorrect (run_scores t l).
Proof.
  intros Hl. revert t. induction Hl as [|s l Hs Hl IH]; intros t Hc; cbn [run_scores]; [lia|].
  destruct (dnl_fail t s Hs Hc) as (H1 & H2 & _).
  cbv zeta in *. destruct (IH (snd (determine_next_level t s)) ltac:(lia)) as [H3 H4]; lia.
Qed.

(** X1: from any tracker whose counter of correct answers is non-negative,
    three or more passing scores in a row (each >= 60) end at [hard]; from any
    tracker whose counter of incorrect answers is non-negative, three or more
    failing scores in a row end at [easy]. *)
Theorem three_passes_reach_hard :
  (forall (t : tracker) (scores : list Z),
     0 <= consecutive_correct t -> (3 <= length scores)%nat ->
     Forall (fun s => 60 <= s) scores ->
     current_level (run_scores t scores) = hard) /\
  (forall (t : tracker) (scores : list Z),
     0 <= consecutive_incorrect t -> (3 <= length scores)%nat ->
     Forall (fun s => s < 60) scores ->
     current_level (run_scores t scores) = easy).
Proof.
  split.
  - intros t scores Hc Hlen Hall.
    destruct scores as [|s1 [|s2 [|s3 rest]]]; simpl in Hlen; try lia.
    inversion_clear Hall as [|? ? H1 Hall1]. inversion_clear Hall1 as [|? ? H2 Hall2].
    inversion_clear Hall2 as [|? ? H3 Hrest]. cbn [run_scores].
    set (t1 := snd (determine_next_level t s1)).
    destruct (dnl_pass t s1 H1 Hc) as (A1 & B1 & _). fold t1 in A1, B1.
    set (t2 := snd (determine_next_level t1 s2)).
    destruct (dnl_pass t1 s2 H2 ltac:(lia)) as (A2 & B2 & C2). fold t2 in A2, B2, C2.
    set (t3 := snd (determine_next_level t2 s3)).
    destruct (dnl_pass t2 s3 H3 ltac:(lia)) as (A3 & B3 & C3). fold t3 in A3, B3, C3.
    destruct (run_passes_monotone t3 rest Hrest ltac:(lia)) as [R _].
    specialize (C2 ltac:(lia)). specialize (C3 ltac:(lia)).
    assert (Hr : rank (current_level (run_scores t3 rest)) = 2).
    { destruct (current_level t1), (current_level t2), (current_level t3),
        (current_level (run_scores t3 rest)); simpl in *; lia. }
    apply (rank_inj _ hard Hr).
  - intros t scores Hc Hlen Hall.
    destruct scores as [|s1 [|s2 [|s3 rest]]]; simpl in Hlen; try lia.
    inversion_clear Hall as [|? ? H1 Hall1]. inversion_clear Hall1 as [|? ? H2 Hall2].
    inversion_clear Hall2 as [|? ? H3 Hrest]. cbn [run_scores].
    set (t1 := snd (determine_next_level t s1)).
    destruct (dnl_fail t s1 H1 Hc) as (A1 & B1 & _). fold t1 in A1, B1.
    set (t2 := snd (determine_next_level t1 s2)).
    destruct (dnl_fail t1 s2 H2 ltac:(lia)) as (A2 & B2 & C2). fold t2 in A2, B2, C2.
    set (t3 := snd (determine_next_level t2 s3)).
    destruct (dnl_fail t2 s3 H3 ltac:(lia)) as (A3 & B3 & C3). fold t3 in A3, B3, C3.
    destruct (run_fails_monotone t3 rest Hrest ltac:(lia)) as [R _].
    specialize (C2 ltac:(lia)). specialize (C3 ltac:(lia)).
    assert (Hr : rank (current_level (run_scores t3 rest)) = 0).
    { destruct (current_level t1), (current_level t2), (current_level t3),
        (current_level (run_scores t3 rest)); simpl in *; lia. }
    apply (rank_inj _ easy Hr).
Qed.

Lemma dnl_progression_cases (t : tracker) (s : Z) :
  let t' := snd (determine_next_level t s) in
  (level_progression t' = level_progression t /\ current_level t' = current_level t) \/
  (level_progression t' = level_progression t ++ [current_level t'] /\
   Z.abs (rank (current_level t') - rank (current_level t)) = 1).
Proof.
  destruct t as [lv q cc ci p].
  unfold determine_next_level, should_promote_level, should_demote_level, _change_level.
  simpl. destruct (60 <=? s); destruct lv; simpl;
  repeat match goal with |- context [2 <=? ?x] => destruct (2 <=? x); simpl end;
  first [left; split; reflexivity | right; split; [reflexivity | simpl; lia]].
Qed.

Lemma steps_ok_snoc (l : list level) (a x : level) :
  steps_ok (a :: l) -> Z.abs (rank x - rank (List.last (a :: l) easy)) = 1 ->
  steps_ok ((a :: l) ++ [x]).
Proof.
  revert a. induction l as [|b l IH]; intros a Hs Hx; simpl in *.
  - split; [lia | exact I].
  - destruct Hs as [Hab Hs]. split; [exact Hab|]. apply (IH b Hs).
    destruct l; exact Hx.
Qed.

Lemma last_snoc_level (l : list level) (x d : level) : List.last (l ++ [x]) d = x.
Proof. apply List.last_last. Qed.

(** X2: after any sequence of scores from the initial tracker, the level
    progression starts with [easy], its last entry is the current level, and
    two adjacent entries are always one step apart. *)
Theorem level_progression_inv (scores : list Z) :
  let t := run_scores init_tracker scores in
  (exists rest, level_progression t = easy :: rest) /\
  List.last (level_progression t) easy = current_level t /\
  steps_ok (level_progression t).
Proof.
  assert (Hgen : forall t, (exists rest, level_progression t = easy :: rest) ->
    List.last (level_progression t) easy = current_level t ->
    steps_ok (level_progression t) ->
    let t' := run_scores t scores in
    (exists rest, level_progression t' = easy :: rest) /\
    List.last (level_progression t') easy = current_level t' /\
    steps_ok (level_progression t')).
  { induction scores as [|s scores IH]; intros t [rest Hr] Hl Hs; cbn [run_scores].
    - eauto.
    - apply IH.
      + destruct (dnl_progression_cases t s) as [[-> _]|[-> _]]; rewrite Hr; eauto.
      + destruct (dnl_progression_cases t s) as [[-> ->]|[-> _]];
          [exact Hl | apply last_snoc_level].
      + destruct (dnl_progression_cases t s) as [[-> _]|[-> Hx]]; [exact Hs|].
        rewrite Hr in *. apply steps_ok_snoc; [exact Hs|]. rewrite Hl. exact Hx. }
  apply Hgen; simpl; eauto.
Qed.

Lemma dnl_counters (t : tracker) (s : Z) :
  let t' := snd (determine_next_level t s) in
  consecutive_correct t' = (if passes s then consecutive_correct t + 1 else 0) /\
  consecutive_incorrect t' = (if passes s then 0 else consecutive_incorrect t + 1).
Proof.
  destruct t as [lv q cc ci p]. unfold passes.
  unfold determine_next_level, should_promote_level, should_demote_level, _change_level.
  simpl. destruct (60 <=? s); destruct lv; simpl;
  repeat match goal with |- context [2 <=? ?x] => destruct (2 <=? x); simpl end;
  split; reflexivity.
Qed.

Lemma trailing_snoc (p : Z -> bool) (l : list Z) (x : Z) :
  trailing p (l ++ [x]) = if p x then 1 + trailing p l else 0.
Proof. unfold trailing. rewrite rev_app_distr. reflexivity. Qed.

(** X3: after any sequence of scores from the initial tracker, the counter
    of correct answers is the length of the run of passing scores at the end
    of the sequence, and the counter of incorrect answers the length of the
    run of failing scores at its end. *)
Theorem streak_counters_trailing (scores : list Z) :
  let t := run_scores init_tracker scores in
  consecutive_correct t = trailing passes scores /\
  consecutive_incorrect t = trailing (fun s => negb (passes s)) scores.
Proof.
  induction scores as [|s scores IH] using rev_ind; [split; reflexivity|].
  cbv zeta in *. rewrite run_scores_app, !trailing_snoc. cbn [run_scores].
  destruct (dnl_counters (run_scores init_tracker scores) s) as [H1 H2].
  rewrite H1, H2. destruct IH as [-> ->]. destruct (passes s); simpl; split; lia.
Qed.

(** X4: in every session reached by answered turns, the level tracker is the
    one obtained by feeding the recorded technical scores, in order, to
    [determine_next_level] from the initial tracker. *)
Theorem session_tracker_replay (s : session) :
  reachable s -> tracker_of s = run_scores init_tracker (technical_scores s).
Proof.
  induction 1 as [|s question answer r Hs IH]; [reflexivity|].
  unfold process_answer. cbv zeta.
  destruct (determine_next_level (tracker_of s) (evaluate_answer_quality answer question r))
    as [l t'] eqn:E. simpl.
  rewrite run_scores_app, <- IH. cbn [run_scores]. rewrite E. reflexivity.
Qed.

Ltac counts_le_facts H :=
  pose proof (H "tab_switch_count" ltac:(simpl; tauto));
  pose proof (H "multiple_faces" ltac:(simpl; tauto));
  pose proof (H "face_coverings" ltac:(simpl; tauto));
  pose proof (H "eye_coverings" ltac:(simpl; tauto));
  pose proof (H "no_face_count" ltac:(simpl; tauto));
  pose proof (H "total_alerts" ltac:(simpl; tauto)).

Lemma gate_min (v c cap acc : Z) :
  0 <= v -> 0 <= c -> 0 <= cap ->
  (if 0 <? v then acc + Z.min (v * c) cap else acc) = acc + Z.min (c * v) cap.
Proof.
  intros Hv Hc Hcap. destruct (0 <? v) eqn:E.
  - rewrite Z.mul_comm. reflexivity.
  - apply Z.ltb_ge in E. assert (v = 0) as -> by lia. rewrite Z.mul_0_r, Z.min_l; lia.
Qed.

Lemma gate_lin (v acc : Z) :
  0 <= v -> (if 0 <? v then acc + 15 * v else acc) = acc + 15 * v.
Proof.
  intros Hv. destruct (0 <? v) eqn:E; [reflexivity|].
  apply Z.ltb_ge in E. lia.
Qed.

Lemma _calculate_proctoring_penalty_formula' (d : gmap string Z) :
  (forall k, In k penalty_counters -> 0 <= get0 d k) ->
  _calculate_proctoring_penalty d = penalty_formula d.
Proof.
  intros H. assert (H' : counts_le d d) by (intros k Hk; specialize (H k Hk); lia).
  counts_le_facts H'. unfold _calculate_proctoring_penalty, penalty_formula. cbv zeta.
  rewrite !gate_min, gate_lin by lia. rewrite !Z.add_0_l. reflexivity.
Qed.

Lemma calculate_proctoring_penalty_formula' (d : gmap string Z) :
  (forall k, In k penalty_counters -> 0 <= get0 d k) ->
  calculate_proctoring_penalty d = penalty_formula d.
Proof.
  intros H. assert (H' : counts_le d d) by (intros k Hk; specialize (H k Hk); lia).
  counts_le_facts H'. unfold calculate_proctoring_penalty, penalty_formula. cbv zeta.
  rewrite !gate_min, gate_lin by lia. rewrite !Z.add_0_l. reflexivity.
Qed.

Lemma penalty_formula_mono (d1 d2 : gmap string Z) :
  counts_le d1 d2 -> penalty_formula d1 <= penalty_formula d2.
Proof.
  intros H. counts_le_facts H. unfold penalty_formula.
  repeat first [ apply Z.min_le_compat_r | apply Z.add_le_mono
               | apply Z.mul_le_mono_nonneg_l; [lia|] ]; lia.
Qed.

(** X5: both penalty functions are monotone: when every counter of [d1] is
    non-negative and at most the same counter of [d2], the penalty of [d1] is
    at most the penalty of [d2]. *)
Theorem proctoring_penalty_monotone (d1 d2 : gmap string Z) :
  counts_le d1 d2 ->
  _calculate_proctoring_penalty d1 <= _calculate_proctoring_penalty d2 /\
  calculate_proctoring_penalty d1 <= calculate_proctoring_penalty d2.
Proof.
  intros H.
  assert (H1 : forall k, In k penalty_counters -> 0 <= get0 d1 k)
    by (intros k Hk; specialize (H k Hk); lia).
  assert (H2 : forall k, In k penalty_counters -> 0 <= get0 d2 k)
    by (intros k Hk; specialize (H k Hk); lia).
  rewrite (_calculate_proctoring_penalty_formula' d1 H1),
    (_calculate_proctoring_penalty_formula' d2 H2),
    (calculate_proctoring_penalty_formula' d1 H1),
    (calculate_proctoring_penalty_formula' d2 H2).
  pose proof (penalty_formula_mono d1 d2 H). lia.
Qed.

Lemma get0_empty (k : string) : get0 ∅ k = 0.
Proof. unfold get0. rewrite lookup_empty. reflexivity. Qed.

(** X6: with non-negative technical scores, more proctoring events never
    raise [overall_score]; supplying stats never gives a higher score than
    supplying none; and stats whose counters are all zero give the same
    score as no stats. The three calls raise together or not at all. *)
Theorem overall_score_antitone (s : session) (d1 d2 : gmap string Z) :
  Forall (fun x => 0 <= x) (technical_scores s) -> counts_le d1 d2 ->
  match calculate_final_evaluation s (Some d2), calculate_final_evaluation s (Some d1),
        calculate_final_evaluation s None with
  | Some ev2, Some ev1, Some ev0 =>
      (overall_score ev2 <= overall_score ev1)%Q /\
      (overall_score ev1 <= overall_score ev0)%Q /\
      (counts_le d1 ∅ -> overall_score ev1 = overall_score ev0)
  | None, None, None => True
  | _, _, _ => False
  end.
Proof.
  intros Hs H.
  assert (H1 : forall k, In k penalty_counters -> 0 <= get0 d1 k)
    by (intros k Hk; specialize (H k Hk); lia).
  assert (H2 : forall k, In k penalty_counters -> 0 <= get0 d2 k)
    by (intros k Hk; specialize (H k Hk); lia).
  pose proof (_calculate_proctoring_penalty_formula' d1 H1) as Hf.
  assert (Hm : _calculate_proctoring_penalty d1 <= _calculate_proctoring_penalty d2)
    by (rewrite Hf, (_calculate_proctoring_penalty_formula' d2 H2);
        apply penalty_formula_mono, H).
  assert (H0 : counts_le ∅ d1)
    by (intros k Hk; specialize (H1 k Hk); rewrite get0_empty; lia).
  assert (Hz0 : penalty_formula ∅ = 0) by reflexivity.
  assert (Hp : 0 <= _calculate_proctoring_penalty d1)
    by (rewrite Hf; pose proof (penalty_formula_mono ∅ d1 H0); lia).
  destruct (technical_average (technical_scores s)) as [avg|] eqn:Ea.
  2: { rewrite !(calculate_final_evaluation_none s _ Ea). exact I. }
  destruct (technical_average_cases _ Hs) as [Havg E].
  rewrite Ea in E. destruct (Qle_bool _ _); [discriminate|]. injection E as E.
  rewrite <- E in Havg.
  destruct (base_of_bounds s avg Havg) as [_ [Hb [Hfl _]]].
  destruct (calculate_final_evaluation_some s (Some d2) avg Ea)
    as [ev2 [-> [_ [_ [_ Hov2]]]]].
  destruct (calculate_final_evaluation_some s (Some d1) avg Ea)
    as [ev1 [-> [_ [_ [_ Hov1]]]]].
  destruct (calculate_final_evaluation_some s None avg Ea)
    as [ev0 [-> [_ [_ [_ Hov0]]]]].
  cbn [truthy] in Hov0. rewrite Hov2, Hov1, Hov0.
  rewrite !(truthy_final _calculate_proctoring_penalty (base_of s avg))
    by (exact _calculate_proctoring_penalty_empty || exact Hfl || exact Hb).
  set (b := base_of s avg) in *.
  assert (Hq1 : (0 <= fl (inject_Z (_calculate_proctoring_penalty d1)))%Q).
  { apply fl_nonneg. change 0%Q with (inject_Z 0). apply inject_Z_le, Hp. }
  split; [|split].
  - apply round1f_mono; [|apply py_max_0_nonneg].
    apply py_max_0_fl_mono.
    assert (fl (inject_Z (_calculate_proctoring_penalty d1))
            <= fl (inject_Z (_calculate_proctoring_penalty d2)))%Q.
    { apply fl_mono; apply inject_Z_le; lia. }
    lra.
  - apply round1f_mono; [|lra].
    rewrite <- Hfl at 2. rewrite <- (py_max_0_pos (fl b)) by (rewrite Hfl; exact Hb).
    apply py_max_0_fl_mono. lra.
  - intros Hz. assert (Hz' : _calculate_proctoring_penalty d1 = 0).
    { rewrite Hf. pose proof (penalty_formula_mono d1 ∅ Hz). lia. }
    rewrite Hz', final_zero_penalty by assumption. reflexivity.
Qed.

Lemma ledger_of_snoc (entries : list (Z * string)) (e : Z * string) :
  ledger_of (entries ++ [e]) = add_question_score (ledger_of entries) (fst e) (snd e).
Proof. unfold ledger_of. rewrite fold_left_app. reflexivity. Qed.

Lemma ledger_of_shape (entries : list (Z * string)) :
  ledger_of entries =
  mk_scoring_data (imap (fun i e => mk_question_data (S i) (fst e) (snd e)) entries)
                  (map fst entries) (map snd entries).
Proof.
  induction entries as [|e entries IH] using rev_ind; [reflexivity|].
  rewrite ledger_of_snoc, IH. unfold add_question_score. simpl.
  rewrite imap_app, !map_app, length_imap. simpl. rewrite Nat.add_0_r. reflexivity.
Qed.

Lemma filter_imap_length (P : Z -> bool) (l : list (Z * string))
  (g : nat -> Z * string -> question_data) :
  (forall i e, qd_technical_score (g i e) = fst e) ->
  length (List.filter (fun q => P (qd_technical_score q)) (imap g l)) =
  length (List.filter (fun e => P (fst e)) l).
Proof.
  revert g. induction l as [|e l IH]; intros g Hg; [reflexivity|].
  rewrite imap_cons. cbn [List.filter]. rewrite (Hg 0%nat e).
  destruct (P (fst e)); cbn [length]; rewrite (IH (compose g S)); auto;
    intros i e'; apply Hg.
Qed.

Lemma fold_max_spec (r : list Z) (a : Z) :
  In (fold_left Z.max r a) (a :: r) /\ forall x, In x (a :: r) -> x <= fold_left Z.max r a.
Proof.
  revert a. induction r as [|b r IH]; intros a; simpl.
  - split; [auto | intros x [->|[]]; lia].
  - destruct (IH (Z.max a b)) as [Hin Hle]. split.
    + destruct Hin as [Hm|Hin]; [|right; right; exact Hin].
      rewrite <- Hm. destruct (Z.max_spec a b) as [[_ ->]|[_ ->]];
        [right; left | left]; reflexivity.
    + intros x [<-|[<-|Hx]].
      * pose proof (Hle (Z.max a b) (or_introl eq_refl)). lia.
      * pose proof (Hle (Z.max a b) (or_introl eq_refl)). lia.
      * apply Hle. right. exact Hx.
Qed.

Lemma fold_min_spec (r : list Z) (a : Z) :
  In (fold_left Z.min r a) (a :: r) /\ forall x, In x (a :: r) -> fold_left Z.min r a <= x.
Proof.
  revert a. induction r as [|b r IH]; intros a; simpl.
  - split; [auto | intros x [->|[]]; lia].
  - destruct (IH (Z.min a b)) as [Hin Hle]. split.
    + destruct Hin as [Hm|Hin]; [|right; right; exact Hin].
      rewrite <- Hm. destruct (Z.min_spec a b) as [[_ ->]|[_ ->]];
        [left | right; left]; reflexivity.
    + intros x [<-|[<-|Hx]].
      * pose proof (Hle (Z.min a b) (or_introl eq_refl)). lia.
      * pose proof (Hle (Z.min a b) (or_introl eq_refl)). lia.
      * apply Hle. right. exact Hx.
Qed.

Lemma spread_iff (l : list Z) :
  l <> [] ->
  (list_max l - list_min l <= 20 <-> forall x y, In x l -> In y l -> x - y <= 20).
Proof.
  intros Hne. destruct l as [|a r]; [congruence|]. unfold list_max, list_min.
  destruct (fold_max_spec r a) as [Hmi Hm]. destruct (fold_min_spec r a) as [Hni Hn].
  split.
  - intros H x y Hx Hy. pose proof (Hm x Hx). pose proof (Hn y Hy). lia.
  - intros H. apply H; assumption.
Qed.

Lemma last_n_2_iff (l : list string) (a b : string) :
  ((2 <= length l)%nat /\ last_n 2 l = [a; b]) <-> exists pre, l = pre ++ [a; b].
Proof.
  unfold last_n. split.
  - intros [Hl Hs]. exists (firstn (length l - 2) l).
    rewrite <- Hs, firstn_skipn. reflexivity.
  - intros [pre ->]. rewrite length_app. simpl.
    replace (length pre + 2 - 2)%nat with (length pre) by lia.
    split; [lia|]. rewrite skipn_app, skipn_all, Nat.sub_diag. reflexivity.
Qed.

Lemma in_default_list (x d : string) (l : list string) :
  In x (match l with [] => [d] | _ => l end) <-> (l = [] /\ x = d) \/ In x l.
Proof. destruct l; simpl; intuition congruence. Qed.

Lemma in_snoc_if (x y : string) (b : bool) (l : list string) :
  In x (if b then l ++ [y] else l) <-> In x l \/ (b = true /\ x = y).
Proof.
  destruct b; rewrite ?in_app_iff; simpl; intuition congruence.
Qed.

(** X7: for a ledger built by [add_question_score], [identify_strengths]
    never returns an empty list; it lists strong knowledge iff at least 3
    scores are >= 80, advanced concepts iff some question was at level
    "hard", consistency iff there are at least 3 scores spread by at most 20,
    and the basic-understanding line only when it is the sole entry. *)
Theorem identify_strengths_ledger (entries : list (Z * string)) :
  let strengths := identify_strengths (ledger_of entries) in
  let scores := map fst entries in
  strengths <> [] /\
  (In "Strong technical knowledge in core areas" strengths <->
     (3 <= length (List.filter (fun e => (80 <=? fst e)%Z) entries))%nat) /\
  (In "Capable of handling advanced concepts" strengths <->
     In "hard" (map snd entries)) /\
  (In "Consistent performance across questions" strengths <->
     (3 <= length entries)%nat /\
     forall x y, In x scores -> In y scores -> x - y <= 20) /\
  (In "Demonstrates basic understanding" strengths <->
     strengths = ["Demonstrates basic understanding"]).
Proof.
  cbv zeta. rewrite ledger_of_shape. unfold identify_strengths. cbn [questions scores_technical sd_level_progression].
  rewrite (filter_imap_length (fun v => 80 <=? v)) by reflexivity.
  set (b1 := (3 <=? length (List.filter (fun e => (80 <=? fst e)%Z) entries))%nat).
  set (b2 := existsb (String.eqb "hard") (map snd entries)).
  set (b3 := ((3 <=? length (map fst entries))%nat &&
              (list_max (map fst entries) - list_min (map fst entries) <=? 20))).
  assert (E1 : b1 = true <-> (3 <= length (List.filter (fun e => (80 <=? fst e)%Z) entries))%nat)
    by (subst b1; apply Nat.leb_le).
  assert (E2 : b2 = true <-> In "hard" (map snd entries)).
  { subst b2. rewrite existsb_exists. split.
    - intros [x [Hx Heq]]. apply String.eqb_eq in Heq. subst x. exact Hx.
    - intros H. exists "hard"%string. split; [exact H | apply String.eqb_refl]. }
  assert (E3 : b3 = true <-> (3 <= length entries)%nat /\
               forall x y, In x (map fst entries) -> In y (map fst entries) -> x - y <= 20).
  { subst b3. rewrite andb_true_iff, Nat.leb_le, Z.leb_le, length_map. split.
    - intros [Hl Hs]. split; [exact Hl|].
      apply spread_iff; [destruct entries; simpl in *; [lia | congruence] | exact Hs].
    - intros [Hl Hs]. split; [exact Hl|].
      apply spread_iff; [destruct entries; simpl in *; [lia | congruence] | exact Hs]. }
  rewrite <- E1, <- E2, <- E3.
  clearbody b1 b2 b3. clear E1 E2 E3.
  destruct b1, b2, b3; simpl; intuition congruence.
Qed.

Lemma filter_imap_nil (P : Z -> bool) (l : list (Z * string))
  (g : nat -> Z * string -> question_data) :
  (forall i e, qd_technical_score (g i e) = fst e) ->
  (List.filter (fun q => P (qd_technical_score q)) (imap g l) = [] <->
   ~ Exists (fun e => P (fst e) = true) l).
Proof.
  intros Hg. rewrite <- length_zero_iff_nil, (filter_imap_length P l g Hg),
    length_zero_iff_nil.
  rewrite List.Exists_exists. split.
  - intros Hnil [e [He HP]].
    assert (Hin : In e (List.filter (fun e => P (fst e)) l)).
    { apply filter_In. split; assumption. }
    rewrite Hnil in Hin. exact Hin.
  - intros Hno. destruct (List.filter (fun e => P (fst e)) l) as [|e r] eqn:E; [reflexivity|].
    exfalso. apply Hno. assert (Hin : In e (List.filter (fun e => P (fst e)) l))
      by (rewrite E; left; reflexivity).
    apply filter_In in Hin. exists e. exact Hin.
Qed.

(** X8: for a ledger built by [add_question_score], [identify_weaknesses]
    never returns an empty list; it lists technical depth iff some score is
    below 60, intermediate practice iff the last two levels are both "easy",
    and the keep-building line only when it is the sole entry. *)
Theorem identify_weaknesses_ledger (entries : list (Z * string)) :
  let weaknesses := identify_weaknesses (ledger_of entries) in
  weaknesses <> [] /\
  (In "Needs improvement in technical depth" weaknesses <->
     Exists (fun e => fst e < 60) entries) /\
  (In "Could benefit from practicing intermediate concepts" weaknesses <->
     exists pre, map snd entries = pre ++ ["easy"; "easy"]) /\
  (In "Continue building experience" weaknesses <->
     weaknesses = ["Continue building experience"]).
Proof.
  cbv zeta. rewrite ledger_of_shape. unfold identify_weaknesses.
  cbn [questions scores_technical sd_level_progression].
  assert (E1 : List.filter (fun q => qd_technical_score q <? 60)
                 (imap (fun i e => mk_question_data (S i) (fst e) (snd e)) entries) = []
               <-> ~ Exists (fun e => fst e < 60) entries).
  { rewrite (filter_imap_nil (fun v => v <? 60)) by reflexivity.
    split; intros H1 H2; apply H1; (eapply Exists_impl; [exact H2|]);
      intros e He; simpl in *; [apply Z.ltb_lt in He | apply Z.ltb_lt]; exact He. }
  set (b2 := if (2 <=? length (map snd entries))%nat
             then bool_decide (last_n 2 (map snd entries) = ["easy"; "easy"]) else false).
  assert (E2 : b2 = true <-> exists pre, map snd entries = pre ++ ["easy"; "easy"]).
  { rewrite <- last_n_2_iff. subst b2.
    destruct (2 <=? length (map snd entries))%nat eqn:Hl.
    - apply Nat.leb_le in Hl. rewrite bool_decide_eq_true. tauto.
    - apply Nat.leb_gt in Hl. split; [discriminate | lia]. }
  assert (Hw : forall w : list string,
             (if (2 <=? length (map snd entries))%nat then
                if bool_decide (last_n 2 (map snd entries) = ["easy"; "easy"])
                then w ++ ["Could benefit from practicing intermediate concepts"] else w
              else w)
             = if b2 then w ++ ["Could benefit from practicing intermediate concepts"] else w).
  { intros w. subst b2. destruct (2 <=? _)%nat; [|reflexivity].
    destruct (bool_decide _); reflexivity. }
  rewrite Hw. rewrite <- E2. clearbody b2. clear Hw E2.
  destruct (List.filter _ _) as [|q r] eqn:Hf.
  - assert (Hn : ~ Exists (fun e => fst e < 60) entries) by (apply E1; reflexivity).
    destruct b2; simpl; intuition congruence.
  - assert (Hn : Exists (fun e => fst e < 60) entries).
    { destruct (decide (Exists (fun e => fst e < 60) entries)) as [H|H];
        [exact H | apply E1 in H; discriminate]. }
    destruct b2; simpl; intuition congruence.
Qed.

Lemma nth_error_imap {A B} (g : nat -> A -> B) (l : list A) (i : nat) (e : A) :
  nth_error l i = Some e -> nth_error (imap g l) i = Some (g i e).
Proof.
  revert g i. induction l as [|x l IH]; intros g i H; [destruct i; discriminate|].
  rewrite imap_cons. destruct i as [|i]; simpl in *.
  - congruence.
  - apply (IH (compose g S) i H).
Qed.

(** X9: [add_question_score] keeps the three lists of the ledger in step:
    one question record, score and level per call, in call order, the i-th
    record (from 0) carrying question number i + 1. *)
Theorem ledger_question_numbers (entries : list (Z * string)) :
  let sd := ledger_of entries in
  length (questions sd) = length entries /\
  scores_technical sd = map fst entries /\
  sd_level_progression sd = map snd entries /\
  (forall (i : nat) (e : Z * string), nth_error entries i = Some e ->
     nth_error (questions sd) i = Some (mk_question_data (S i) (fst e) (snd e))).
Proof.
  cbv zeta. rewrite ledger_of_shape. cbn [questions scores_technical sd_level_progression].
  split; [apply length_imap|]. split; [reflexivity|]. split; [reflexivity|].
  intros i e H. apply (nth_error_imap (fun i e => mk_question_data (S i) (fst e) (snd e)) _ _ _ H).
Qed.

(** X10: for a ledger of scores in [[0, 100]] and stats with non-negative
    counts (or none), [ScoringService.calculate_final_evaluation] returns
    (it does not raise) an overall score and a technical average in
    [[0, 100]], whatever the final level passed. *)
Theorem ss_overall_score_bounds (entries : list (Z * string)) (final_level : string)
  (proctoring_stats : option (gmap string Z)) :
  Forall (fun e => 0 <= fst e <= 100) entries ->
  match proctoring_stats with Some d => counts_nonneg d | None => True end ->
  exists ev,
    ss_calculate_final_evaluation (ledger_of entries) final_level proctoring_stats = Some ev /\
    (0 <= ss_overall_score ev <= 100)%Q /\ (0 <= technical_avg ev <= 100)%Q.
Proof.
  intros He Hd.
  destruct entries as [|e r].
  { eexists. split; [reflexivity|]. split; split; qle_eval. }
  assert (Hne : e :: r <> []) by discriminate.
  assert (Hpos : Forall (fun e => 0 <= fst e) (e :: r))
    by (eapply Forall_impl; [exact He|]; simpl; intros x Hx; lia).
  destruct (ledger_average (e :: r) Hne Hpos) as [_ E].
  assert (Hm : (0 <= fl (mean (map fst (e :: r))) <= 100)%Q).
  { apply mean_fl_bounds; [discriminate|]. apply Forall_map, He. }
  set (avg := fl (mean (map fst (e :: r)))) in *.
  destruct (Qle_bool (pow2 1024) avg) eqn:Eb.
  { exfalso. apply Qle_bool_iff in Eb.
    assert (Hp : (100 < pow2 1024)%Q) by (vm_compute; reflexivity). lra. }
  destruct (ss_calculate_final_evaluation_some (ledger_of (e :: r)) final_level
              proctoring_stats avg (ledger_nonempty _ Hne) E)
    as [ev [Eev [Ht [_ Hov]]]].
  exists ev. split; [exact Eev|]. rewrite Ht, Hov.
  split; [|apply round1f_bounds, Hm].
  destruct (ss_base_bounds final_level avg (proj1 Hm)) as [Hb [_ Hle]].
  specialize (Hle (proj2 Hm)).
  apply round1f_bounds.
  destruct (truthy proctoring_stats) as [d|] eqn:Ht'.
  - assert (Hd' : counts_nonneg d).
    { destruct proctoring_stats as [d0|]; simpl in Ht'; [|discriminate].
      destruct (decide (d0 = ∅)); [discriminate|]. injection Ht' as <-. exact Hd. }
    pose proof (calculate_proctoring_penalty_formula d Hd') as Hf.
    pose proof (penalty_formula_range d Hd') as Hp. rewrite <- Hf in Hp.
    assert (Hpq : (0 <= fl (inject_Z (calculate_proctoring_penalty d)))%Q).
    { apply fl_nonneg. change 0%Q with (inject_Z 0). apply inject_Z_le. lia. }
    apply py_max_0_bounds; [|discriminate].
    apply fl_le_100. lra.
  - cbv iota. lra.
Qed.

(** X11: [get_scores_summary] reports the number of recorded questions, the
    last recorded level (["easy"] when none), the whole level history, and
    the last min(5, n) scores in order; it raises only when the scores are
    non-empty and their mean is too large for a float. *)
Theorem get_scores_summary_ledger (entries : list (Z * string)) :
  match get_scores_summary (ledger_of entries) with
  | Some sm =>
      summary_total_questions sm = length entries /\
      summary_current_level sm = List.last (map snd entries) "easy" /\
      level_history sm = map snd entries /\
      length (recent_scores sm) = Nat.min 5 (length entries) /\
      (exists older, map fst entries = older ++ recent_scores sm)
  | None =>
      entries <> [] /\
      (pow2 1024 <= Qabs (fl (mean (map fst entries))))%Q
  end.
Proof.
  rewrite ledger_of_shape. unfold get_scores_summary, calculate_current_average.
  cbn [questions scores_technical sd_level_progression].
  destruct (map fst entries) as [|x l] eqn:Em.
  - (* no scores: the average is 0 *)
    destruct entries as [|e r]; [|discriminate]. cbn.
    split; [reflexivity|]. split; [reflexivity|]. split; [reflexivity|].
    split; [reflexivity|]. exists []. reflexivity.
  - assert (Hne : entries <> []) by (intros ->; discriminate).
    unfold py_int_truediv.
    rewrite (proj2 (Z.eqb_neq _ 0)) by (simpl; lia).
    destruct (Qle_bool (pow2 1024) _) eqn:Eb.
    { split; [exact Hne|]. apply Qle_bool_iff in Eb. exact Eb. }
    rewrite <- Em.
    cbn [summary_total_questions summary_current_level level_history recent_scores].
    split; [apply length_imap|]. split.
    { destruct (map snd entries) as [|a r] eqn:E; [reflexivity|].
      clear E. revert a. induction r as [|b r IH]; intros a; [reflexivity|].
      exact (IH b). }
    split; [reflexivity|].
    rewrite length_map. unfold last_n. rewrite length_map.
    destruct (5 <? length entries)%nat eqn:Hl.
    + apply Nat.ltb_lt in Hl. split.
      * rewrite length_skipn, length_map. lia.
      * exists (firstn (length entries - 5) (map fst entries)).
        rewrite firstn_skipn. reflexivity.
    + apply Nat.ltb_ge in Hl. split.
      * rewrite length_map. lia.
      * exists []. reflexivity.
Qed.

Lemma generate_loop_S (model : nat -> model_response) (n a r : nat) :
  generate_loop model n a (S r) =
  match model a with
  | Response (Some text) =>
      if String.eqb text EmptyString
      then (Some fallback_text, [Attempt a])
      else (Some (strip text), [Attempt a])
  | Response None => (Some fallback_text, [Attempt a])
  | Raises =>
      if (a <? n - 1)%nat then
        let '(res, evs) := generate_loop model n (S a) r in
        (res, Attempt a :: Sleep 2 :: evs)
      else (Some fallback_text, [Attempt a])
  end.
Proof. reflexivity. Qed.

Lemma generate_loop_first_text (model : nat -> model_response) (n : nat) (text : string) :
  forall k a r, (a + r = n)%nat -> (k < r)%nat ->
  (forall j, (a <= j < a + k)%nat -> model j = Raises) ->
  model (a + k)%nat = Response (Some text) -> text <> EmptyString ->
  generate_loop model n a r = (Some (strip text), retry_trace a k).
Proof.
  induction k as [|k IH]; intros a r Hn Hk Hr Ht Hne; (destruct r as [|r]; [lia|]);
    rewrite generate_loop_S.
  - rewrite Nat.add_0_r in Ht. rewrite Ht.
    destruct (String.eqb text EmptyString) eqn:E; [apply String.eqb_eq in E; congruence|].
    reflexivity.
  - rewrite (Hr a ltac:(lia)).
    assert (Hlt : (a <? n - 1)%nat = true) by (apply Nat.ltb_lt; lia). rewrite Hlt.
    rewrite (IH (S a) r); [reflexivity | lia | lia | | | exact Hne].
    + intros j Hj. apply Hr. lia.
    + replace (S a + k)%nat with (a + S k)%nat by lia. exact Ht.
Qed.

Lemma generate_loop_all_raise (model : nat -> model_response) (n : nat) :
  forall r a, (a + S r = n)%nat ->
  (forall j, (a <= j < n)%nat -> model j = Raises) ->
  generate_loop model n a (S r) = (Some fallback_text, retry_trace a r).
Proof.
  induction r as [|r IH]; intros a Hn Hr; rewrite generate_loop_S, (Hr a ltac:(lia)).
  - assert (Hlt : (a <? n - 1)%nat = false) by (apply Nat.ltb_ge; lia). rewrite Hlt.
    reflexivity.
  - assert (Hlt : (a <? n - 1)%nat = true) by (apply Nat.ltb_lt; lia). rewrite Hlt.
    rewrite (IH (S a)); [reflexivity | lia |].
    intros j Hj. apply Hr. lia.
Qed.

Lemma generate_loop_shape (model : nat -> model_response) (n : nat) :
  forall r a, (a + r = n)%nat -> (1 <= r)%nat ->
  let '(res, evs) := generate_loop model n a r in
  (exists str, res = Some str) /\ (attempts evs <= r)%nat /\ sleeps_fixed evs.
Proof.
  unfold attempts, sleeps_fixed.
  induction r as [|r IH]; intros a Hn Hr; [lia|]. rewrite generate_loop_S.
  destruct (model a) as [|[text|]].
  - destruct (a <? n - 1)%nat eqn:Hlt.
    + apply Nat.ltb_lt in Hlt.
      specialize (IH (S a) ltac:(lia) ltac:(lia)).
      destruct (generate_loop model n (S a) r) as [res evs].
      destruct IH as (Hs & Ha & Hf). simpl. split; [exact Hs|].
      assert (E : filter (fun e => is_attempt e) (Sleep 2 :: evs)
                  = filter (fun e => is_attempt e) evs) by reflexivity.
      rewrite E. split; [lia|]. repeat constructor; auto.
    + split; [eauto|]. split; [simpl; lia | repeat constructor].
  - destruct (String.eqb text EmptyString);
      (split; [eauto|]; split; [simpl; lia | repeat constructor]).
  - split; [eauto|]. split; [simpl; lia | repeat constructor].
Qed.

(** X12: [generate_text] with [max_retries = 0] returns [None]; with
    [max_retries >= 1] it always returns a string after at most
    [max_retries] attempts with 2-second sleeps; when every attempt raises it
    makes all [max_retries] attempts and returns the fallback string; and the
    first attempt that returns a non-empty text ends the loop with that text
    stripped. *)
Theorem generate_text_retries :
  (forall model, generate_text model 0 = (None, [])) /\
  (forall model n, (1 <= n)%nat ->
     let '(res, evs) := generate_text model n in
     (exists str, res = Some str) /\ (attempts evs <= n)%nat /\ sleeps_fixed evs) /\
  (forall model n, (1 <= n)%nat -> (forall j, (j < n)%nat -> model j = Raises) ->
     generate_text model n = (Some fallback_text, retry_trace 0 (n - 1))) /\
  (forall model n k text, (k < n)%nat ->
     (forall j, (j < k)%nat -> model j = Raises) ->
     model k = Response (Some text) -> text <> EmptyString ->
     generate_text model n = (Some (strip text), retry_trace 0 k)).
Proof.
  split; [reflexivity|]. split; [|split].
  - intros model n Hn. apply generate_loop_shape; lia.
  - intros model n Hn Hr. unfold generate_text.
    destruct n as [|m]; [lia|]. replace (S m - 1)%nat with m by lia.
    apply generate_loop_all_raise; [lia|]. intros j Hj. apply Hr. lia.
  - intros model n k text Hk Hr Ht Hne. unfold generate_text.
    apply (generate_loop_first_text model n text k 0 n); auto; [intros j Hj; apply Hr; lia].
Qed.

Lemma starts_with_app (p l1 l2 : list ascii) :
  starts_with p l1 = true -> starts_with p (l1 ++ l2) = true.
Proof.
  revert l1. induction p as [|a p IH]; intros l1 H; [reflexivity|].
  destruct l1 as [|b l1]; [discriminate|]. simpl in *.
  apply andb_true_iff in H as [H1 H2]. rewrite H1, (IH l1 H2). reflexivity.
Qed.

Lemma contains_l_iff (p x : list ascii) :
  contains_l p x = true <-> exists u t, x = u ++ t /\ starts_with p t = true.
Proof.
  induction x as [|c x IH]; simpl.
  - rewrite orb_false_r. split.
    + intros H. exists [], []. auto.
    + intros (u & t & Hx & Ht). destruct u; [|discriminate]. destruct t; [exact Ht|discriminate].
  - rewrite orb_true_iff, IH. split.
    + intros [H|(u & t & -> & Ht)].
      * exists [], (c :: x). auto.
      * exists (c :: u), t. auto.
    + intros (u & t & Hx & Ht). destruct u as [|a u].
      * left. simpl in Hx. subst t. exact Ht.
      * right. injection Hx as -> Hx. exists u, t. auto.
Qed.

Lemma contains_l_infix (p a x b : list ascii) :
  contains_l p x = true -> contains_l p (a ++ x ++ b) = true.
Proof.
  rewrite !contains_l_iff. intros (u & t & -> & Ht).
  exists (a ++ u), (t ++ b). split.
  - rewrite <- !app_assoc. reflexivity.
  - apply starts_with_app. exact Ht.
Qed.

Lemma drop_space_suffix (l : list ascii) : exists pre, l = pre ++ drop_space l.
Proof.
  induction l as [|c l IH]; simpl; [exists []; reflexivity|].
  destruct (is_space c).
  - destruct IH as [pre Hp]. exists (c :: pre). simpl. f_equal. exact Hp.
  - exists []. reflexivity.
Qed.

Lemma strip_infix (s : string) :
  exists a b, list_ascii_of_string s = a ++ list_ascii_of_string (strip s) ++ b.
Proof.
  unfold strip. rewrite list_ascii_of_string_of_list_ascii.
  set (l := list_ascii_of_string s).
  destruct (drop_space_suffix l) as [pre Hpre].
  destruct (drop_space_suffix (rev (drop_space l))) as [pre2 Hpre2].
  exists pre, (rev pre2).
  rewrite Hpre at 1. f_equal.
  set (m := drop_space l) in *.
  rewrite <- (rev_involutive m) at 1. rewrite Hpre2 at 1. rewrite rev_app_distr.
  reflexivity.
Qed.

Lemma snoc_split (x u t : list ascii) (c : ascii) :
  x ++ [c] = u ++ t -> t <> [] -> exists t', t = t' ++ [c] /\ x = u ++ t'.
Proof.
  intros H Ht. destruct (exists_last Ht) as [t' [z ->]].
  rewrite app_assoc in H. apply app_inj_tail in H as [H1 H2]. subst z.
  exists t'. auto.
Qed.

Lemma contains_strip (p s : string) :
  contains p (strip s) = true -> contains p s = true.
Proof.
  unfold contains. destruct (strip_infix s) as (a & b & ->).
  apply contains_l_infix.
Qed.

Lemma split_on_aux_nonempty (fuel : nat) (sep cur l : list ascii) :
  split_on_aux fuel sep cur l <> [].
Proof.
  revert cur l. induction fuel as [|fuel IH]; intros cur l; simpl; [discriminate|].
  destruct l as [|c r]; [discriminate|].
  destruct (starts_with sep (c :: r)); [discriminate | apply IH].
Qed.

Lemma split_on_aux_last (sep : list ascii) :
  sep <> [] ->
  forall fuel cur l, (length l < fuel)%nat ->
  (forall u t, rev cur = u ++ t -> t <> [] -> starts_with sep (t ++ l) = false) ->
  contains_l sep (List.last (split_on_aux fuel sep cur l) []) = false.
Proof.
  intros Hsep. induction fuel as [|fuel IH]; intros cur l Hf Hinv; [lia|].
  simpl. destruct l as [|c r].
  - simpl. apply not_true_iff_false. rewrite contains_l_iff.
    intros (u & t & Hx & Ht). destruct t as [|a t].
    + destruct sep; [congruence | discriminate].
    + pose proof (Hinv u (a :: t) Hx ltac:(discriminate)) as H.
      rewrite app_nil_r in H. congruence.
  - destruct (starts_with sep (c :: r)) eqn:Hs.
    + pose proof (split_on_aux_nonempty fuel sep [] (skipn (length sep) (c :: r))) as Hne.
      destruct (split_on_aux fuel sep [] (skipn (length sep) (c :: r))) as [|x rest] eqn:E;
        [congruence|].
      change (List.last (rev cur :: x :: rest) []) with (List.last (x :: rest) []).
      rewrite <- E. apply IH.
      * rewrite length_skipn. simpl in Hf. destruct sep; [congruence|]. simpl. lia.
      * intros u t Hx Ht. destruct u, t; simpl in Hx; try discriminate. congruence.
    + apply IH; [simpl in Hf; lia|].
      intros u t Hx Ht. simpl in Hx.
      destruct (snoc_split (rev cur) u t c Hx Ht) as [t' [-> Hu]].
      destruct t' as [|a t'].
      * simpl. exact Hs.
      * rewrite <- app_assoc. apply (Hinv u (a :: t')); [exact Hu | discriminate].
Qed.

Lemma last_map_f {A B} (f : A -> B) (l : list A) (d : A) :
  List.last (map f l) (f d) = f (List.last l d).
Proof.
  induction l as [|a l IH]; [reflexivity|]. simpl. rewrite IH.
  destruct l; reflexivity.
Qed.

Lemma split_on_last_no_sep (sep s : string) :
  sep <> EmptyString ->
  contains sep (List.last (split_on sep s) EmptyString) = false.
Proof.
  intros Hsep. unfold split_on, contains.
  change EmptyString with (string_of_list_ascii []).
  rewrite last_map_f, list_ascii_of_string_of_list_ascii.
  apply split_on_aux_last.
  - destruct sep; [congruence | discriminate].
  - lia.
  - intros u t Hx Ht. destruct u, t; simpl in Hx; try discriminate. congruence.
Qed.

(** X13: the question [get_next_question_without_answer] returns is either
    one of the per-level fallback questions, or a text of 10 to 500
    characters that contains no ["QUESTION:"] marker. *)
Theorem skip_question_shape (job_role : string) (lvl : level)
  (llm_response : outcome string) (pick : nat) :
  let q := get_next_question_without_answer job_role lvl llm_response pick in
  In q (fallback_questions job_role lvl) \/
  ((10 <= String.length q <= 500)%nat /\ contains "QUESTION:" q = false).
Proof.
  cbv zeta. destruct llm_response as [response|]; [|left; apply fallback_question_in_pool].
  unfold get_next_question_without_answer.
  set (nq := strip response).
  assert (Hnq : contains "QUESTION:"
                  (if contains "QUESTION:" nq
                   then strip (List.last (split_on "QUESTION:" nq) EmptyString) else nq)
                = false).
  { destruct (contains "QUESTION:" nq) eqn:Hc; [|exact Hc].
    apply not_true_iff_false. intros H. apply contains_strip in H.
    rewrite split_on_last_no_sep in H; [discriminate | discriminate]. }
  revert Hnq.
  set (q := if contains "QUESTION:" nq
            then strip (List.last (split_on "QUESTION:" nq) EmptyString) else nq).
  intros Hnq.
  destruct ((String.length q <? 10)%nat || (500 <? String.length q)%nat) eqn:Hl.
  - left. apply fallback_question_in_pool.
  - right. apply orb_false_iff in Hl as [H1 H2].
    apply Nat.ltb_ge in H1. apply Nat.ltb_ge in H2. split; [lia | exact Hnq].
Qed.

Lemma tab_switches_app l1 l2 : tab_switches (l1 ++ l2) = tab_switches l1 + tab_switches l2.
Proof. induction l1 as [|[]]; simpl; lia. Qed.

Lemma frames_with_app a l1 l2 : frames_with a (l1 ++ l2) = frames_with a l1 + frames_with a l2.
Proof. induction l1 as [|[]]; simpl; lia. Qed.

Lemma alerts_total_app l1 l2 : alerts_total (l1 ++ l2) = alerts_total l1 + alerts_total l2.
Proof. induction l1 as [|[]]; simpl; lia. Qed.

Lemma frames_with_frame a alerts :
  frames_with a [Frame alerts] = if existsb (String.eqb a) alerts then 1 else 0.
Proof. cbn [frames_with]. lia. Qed.

Lemma alerts_total_frame alerts : alerts_total [Frame alerts] = Z.of_nat (length alerts).
Proof. cbn [alerts_total]. lia. Qed.

Lemma run_proctor_app (p : proctor) (l1 l2 : list proctor_event) :
  run_proctor p (l1 ++ l2) =
  match run_proctor p l1 with Some p' => run_proctor p' l2 | None => None end.
Proof.
  revert p. induction l1 as [|ev l1 IH]; intros p; [reflexivity|]. simpl.
  destruct (proctor_step p ev); [apply IH | reflexivity].
Qed.

Lemma get0_insert (d : gmap string Z) (k k' : string) (v : Z) :
  get0 (<[k := v]> d) k' = if String.eqb k k' then v else get0 d k'.
Proof.
  unfold get0. destruct (String.eqb_spec k k') as [<-|Hne].
  - rewrite lookup_insert_eq. reflexivity.
  - rewrite lookup_insert_ne by exact Hne. reflexivity.
Qed.

Lemma incr_key_some (d : gmap string Z) (k : string) (n : Z) :
  is_Some (d !! k) -> incr_key d k n = Some (<[k := get0 d k + n]> d).
Proof. intros [v Hv]. unfold incr_key, get0. rewrite Hv. reflexivity. Qed.

Lemma keys_present_insert (d : gmap string Z) (k : string) (v : Z) :
  keys_present d -> keys_present (<[k := v]> d).
Proof. intros H k' Hk. apply lookup_insert_is_Some'. right. apply H, Hk. Qed.

Lemma alerts_count (alerts : list string) :
  (if existsb (String.eqb "MULTIPLE PEOPLE DETECTED") alerts then 1 else 0)
  + (if existsb (String.eqb "FACE COVERED") alerts then 1 else 0)
  + (if existsb (String.eqb "EYES COVERED") alerts then 1 else 0)
  + (if existsb (String.eqb "NO FACE DETECTED") alerts then 1 else 0)
  <= Z.of_nat (length alerts).
Proof.
  set (ks := ["MULTIPLE PEOPLE DETECTED"; "FACE COVERED"; "EYES COVERED";
              "NO FACE DETECTED"]%string).
  set (f := fun k => existsb (String.eqb k) alerts).
  assert (Hnd : List.NoDup (List.filter f ks)).
  { apply List.NoDup_filter. subst ks.
    repeat constructor; simpl; intuition discriminate. }
  assert (Hincl : incl (List.filter f ks) alerts).
  { intros x Hx. apply filter_In in Hx as [_ Hx]. subst f. simpl in Hx.
    apply existsb_exists in Hx as [y [Hy Heq]]. apply String.eqb_eq in Heq. subst y. exact Hy. }
  pose proof (List.NoDup_incl_length Hnd Hincl) as Hlen.
  subst f ks. cbn [List.filter] in Hlen.
  destruct (existsb (String.eqb "MULTIPLE PEOPLE DETECTED") alerts),
    (existsb (String.eqb "FACE COVERED") alerts),
    (existsb (String.eqb "EYES COVERED") alerts),
    (existsb (String.eqb "NO FACE DETECTED") alerts); cbn [length] in Hlen; lia.
Qed.

Lemma proctor_step_counts (p : proctor) (evs : list proctor_event) (ev : proctor_event) :
  proctor_counts p evs ->
  exists p', proctor_step p ev = Some p' /\ proctor_counts p' (evs ++ [ev]).
Proof.
  intros (Hk & Ht & Ht' & Hm & Hf & He & Hn & Ha).
  unfold proctor_counts. rewrite tab_switches_app, !frames_with_app, alerts_total_app.
  destruct ev as [alerts|].
  - rewrite !frames_with_frame, alerts_total_frame. cbn [tab_switches proctor_step].
    unfold update_proctoring_stats. cbv beta zeta iota.
    set (s := proctoring_stats p) in *.
    destruct alerts as [|a0 r0].
    { simpl. eexists. split; [reflexivity|]. cbn [proctoring_stats tab_switch_count].
      fold s. split; [exact Hk|]. lia. }
    pose proof (alerts_count (a0 :: r0)) as Hc.
    destruct (existsb (String.eqb "MULTIPLE PEOPLE DETECTED") (a0 :: r0)) eqn:B1;
    destruct (existsb (String.eqb "FACE COVERED") (a0 :: r0)) eqn:B2;
    destruct (existsb (String.eqb "EYES COVERED") (a0 :: r0)) eqn:B3;
    destruct (existsb (String.eqb "NO FACE DETECTED") (a0 :: r0)) eqn:B4;
    repeat (cbv beta iota;
            rewrite incr_key_some by
              (repeat (apply lookup_insert_is_Some'; right); apply Hk; simpl; tauto));
    cbv beta iota;
    eexists; (split; [reflexivity|]); cbn [proctoring_stats tab_switch_count];
    (split; [repeat apply keys_present_insert; exact Hk|]);
    rewrite ?get0_insert;
    rewrite ?B1, ?B2, ?B3, ?B4 in Hc |- *; simpl in Hc |- *; lia.
  - cbn [tab_switches frames_with alerts_total proctor_step].
    eexists. split; [reflexivity|]. cbn [proctoring_stats tab_switch_count].
    split; [apply keys_present_insert, Hk|].
    rewrite !get0_insert. simpl. lia.
Qed.

Lemma frames_with_nonneg a evs : 0 <= frames_with a evs.
Proof. induction evs as [|[al|] r IH]; cbn [frames_with]; [lia| |lia]. destruct existsb; lia. Qed.

Lemma tab_switches_nonneg evs : 0 <= tab_switches evs.
Proof. induction evs as [|[al|] r IH]; cbn [tab_switches]; lia. Qed.

Lemma frames_within_alerts evs :
  frames_with "MULTIPLE PEOPLE DETECTED" evs + frames_with "FACE COVERED" evs
  + frames_with "EYES COVERED" evs + frames_with "NO FACE DETECTED" evs
  <= alerts_total evs.
Proof.
  induction evs as [|[al|] r IH].
  - reflexivity.
  - change (Frame al :: r) with ([Frame al] ++ r).
    rewrite !frames_with_app, alerts_total_app, !frames_with_frame, alerts_total_frame.
    pose proof (alerts_count al). lia.
  - cbn [frames_with alerts_total]. exact IH.
Qed.

Lemma run_proctor_counts (evs : list proctor_event) :
  exists p, run_proctor init_proctor evs = Some p /\ proctor_counts p evs.
Proof.
  induction evs as [|ev evs IH] using rev_ind.
  - exists init_proctor. split; [reflexivity|].
    split; [intros k Hk; simpl in Hk; repeat destruct Hk as [<-|Hk]; try contradiction;
            vm_compute; eexists; reflexivity|].
    vm_compute. repeat split; discriminate.
  - destruct IH as (p & Hr & Hc).
    destruct (proctor_step_counts p evs ev Hc) as (p' & Hs & Hc').
    exists p'. split; [|exact Hc'].
    rewrite run_proctor_app, Hr. simpl. rewrite Hs. reflexivity.
Qed.

Lemma collected_stats_get0 (p : proctor) :
  let s := proctoring_stats p in
  get0 (collected_stats p) "tab_switch_count" = tab_switch_count p /\
  get0 (collected_stats p) "multiple_faces" = get0 s "multiple_faces" /\
  get0 (collected_stats p) "face_coverings" = get0 s "face_coverings" /\
  get0 (collected_stats p) "eye_coverings" = get0 s "eye_coverings" /\
  get0 (collected_stats p) "no_face_count" = get0 s "no_face_count" /\
  get0 (collected_stats p) "total_alerts" = get0 s "total_alerts".
Proof. unfold collected_stats. rewrite !get0_insert. simpl. repeat split. Qed.

(** X14: any sequence of video frames and tab switches from a new session is
    handled without a [KeyError], and the stats dict collected for
    [end_interview] counts the tab switches, the frames whose alerts contain
    each of the four face alerts, and the total number of alerts; all
    counters are non-negative and the four face counters add up to at most
    the total number of alerts. *)
Theorem proctoring_stats_counts (evs : list proctor_event) :
  exists p, run_proctor init_proctor evs = Some p /\
  let s := collected_stats p in
  get0 s "tab_switch_count" = tab_switches evs /\
  get0 s "multiple_faces" = frames_with "MULTIPLE PEOPLE DETECTED" evs /\
  get0 s "face_coverings" = frames_with "FACE COVERED" evs /\
  get0 s "eye_coverings" = frames_with "EYES COVERED" evs /\
  get0 s "no_face_count" = frames_with "NO FACE DETECTED" evs /\
  get0 s "total_alerts" = alerts_total evs /\
  (forall k, In k penalty_counters -> 0 <= get0 s k) /\
  get0 s "multiple_faces" + get0 s "face_coverings" + get0 s "eye_coverings"
  + get0 s "no_face_count" <= get0 s "total_alerts".
Proof.
  destruct (run_proctor_counts evs) as (p & Hr & _ & Ht & _ & Hm & Hf & He & Hn & Ha).
  exists p. split; [exact Hr|]. cbv zeta.
  destruct (collected_stats_get0 p) as (Ct & Cm & Cf & Ce & Cn & Ca).
  rewrite Ct, Cm, Cf, Ce, Cn, Ca, Ht, Hm, Hf, He, Hn, Ha.
  pose proof (frames_within_alerts evs).
  pose proof (tab_switches_nonneg evs).
  pose proof (frames_with_nonneg "MULTIPLE PEOPLE DETECTED" evs).
  pose proof (frames_with_nonneg "FACE COVERED" evs).
  pose proof (frames_with_nonneg "EYES COVERED" evs).
  pose proof (frames_with_nonneg "NO FACE DETECTED" evs).
  repeat split; try reflexivity; try lia.
  intros k Hk; simpl in Hk; repeat destruct Hk as [<-|Hk]; try contradiction;
    [rewrite Ct, Ht | rewrite Cm, Hm | rewrite Cf, Hf | rewrite Ce, He
    | rewrite Cn, Hn | rewrite Ca, Ha]; lia.
Qed.

(** X15: the live estimate of [get_proctoring_stats] equals the final
    penalty when at most 2 multiple-faces frames were seen and the raw face
    subtotal is at most 50; with 3 or more multiple-faces frames and no other
    face alert it is strictly lower than the final penalty (the estimate caps
    the multiple-faces term at 30, the final formula only at 50). *)
Theorem penalty_estimate_vs_final (evs : list proctor_event) (p : proctor) :
  run_proctor init_proctor evs = Some p ->
  let s := collected_stats p in
  (get0 s "multiple_faces" <= 2 -> face_subtotal_raw s <= 50 ->
   penalty_estimate p = _calculate_proctoring_penalty s) /\
  (3 <= get0 s "multiple_faces" -> get0 s "face_coverings" = 0 ->
   get0 s "eye_coverings" = 0 -> get0 s "no_face_count" = 0 ->
   penalty_estimate p < _calculate_proctoring_penalty s).
Proof.
  intros Hr. cbv zeta.
  destruct (run_proctor_counts evs) as (p' & Hr' & _ & Ht & _ & Hm & Hf & He & Hn & Ha).
  rewrite Hr in Hr'. injection Hr' as <-.
  destruct (collected_stats_get0 p) as (Ct & Cm & Cf & Ce & Cn & Ca).
  assert (Hnn : forall k, In k penalty_counters -> 0 <= get0 (collected_stats p) k).
  { intros k Hk; simpl in Hk; repeat destruct Hk as [<-|Hk]; try contradiction;
      [rewrite Ct, Ht; apply tab_switches_nonneg
      | rewrite Cm, Hm | rewrite Cf, Hf | rewrite Ce, He | rewrite Cn, Hn
      | rewrite Ca, Ha; pose proof (frames_within_alerts evs)];
      pose proof (frames_with_nonneg "MULTIPLE PEOPLE DETECTED" evs);
      pose proof (frames_with_nonneg "FACE COVERED" evs);
      pose proof (frames_with_nonneg "EYES COVERED" evs);
      pose proof (frames_with_nonneg "NO FACE DETECTED" evs); lia. }
  rewrite (_calculate_proctoring_penalty_formula' _ Hnn).
  pose proof (Hnn "tab_switch_count" ltac:(simpl; tauto)) as N0.
  pose proof (Hnn "total_alerts" ltac:(simpl; tauto)) as N5.
  pose proof (Hnn "multiple_faces" ltac:(simpl; tauto)) as N1.
  pose proof (Hnn "face_coverings" ltac:(simpl; tauto)) as N2.
  pose proof (Hnn "eye_coverings" ltac:(simpl; tauto)) as N3.
  pose proof (Hnn "no_face_count" ltac:(simpl; tauto)) as N4.
  unfold penalty_estimate, penalty_formula, face_subtotal_raw. cbv zeta.
  rewrite Ct, Cm, Cf, Ce, Cn, Ca in *.
  set (t := tab_switch_count p) in *.
  set (s := proctoring_stats p) in *.
  split.
  - intros Hm2 Hface. lia.
  - intros Hm3 Hf0 He0 Hn0. rewrite Hf0, He0, Hn0. lia.
Qed.

Lemma three_passes_reach_hard_witness :
  current_level (run_scores init_tracker [70; 85; 60]) = hard /\
  current_level (run_scores init_tracker [10; 59; 30; 45]) = easy.
Proof.
  split.
  - apply (proj1 three_passes_reach_hard); [vm_compute; discriminate | simpl; lia |].
    repeat constructor; discriminate.
  - apply (proj2 three_passes_reach_hard); [vm_compute; discriminate | simpl; lia |].
    repeat constructor.
Defined.

Lemma session_tracker_replay_witness :
  tracker_of (process_answer init_session "q" "a" (Returned "85"))
  = run_scores init_tracker
      (technical_scores (process_answer init_session "q" "a" (Returned "85"))).
Proof. apply session_tracker_replay. apply reach_answer, reach_init. Defined.

Lemma proctoring_penalty_monotone_witness :
  _calculate_proctoring_penalty {[ "tab_switch_count" := 2 ]}
    <= _calculate_proctoring_penalty {[ "tab_switch_count" := 5 ]} /\
  calculate_proctoring_penalty {[ "tab_switch_count" := 2 ]}
    <= calculate_proctoring_penalty {[ "tab_switch_count" := 5 ]}.
Proof.
  apply proctoring_penalty_monotone.
  intros k Hk; simpl in Hk; repeat destruct Hk as [<-|Hk]; try contradiction;
    vm_compute; split; discriminate.
Defined.

Lemma overall_score_antitone_witness :
  let s := process_answer init_session "q" "a" (Returned "85") in
  let d1 := {[ "tab_switch_count" := 2 ]} in
  let d2 := {[ "tab_switch_count" := 5 ]} in
  match calculate_final_evaluation s (Some d2), calculate_final_evaluation s (Some d1),
        calculate_final_evaluation s None with
  | Some ev2, Some ev1, Some ev0 =>
      (overall_score ev2 <= overall_score ev1)%Q /\
      (overall_score ev1 <= overall_score ev0)%Q /\
      (counts_le d1 ∅ -> overall_score ev1 = overall_score ev0)
  | None, None, None => True
  | _, _, _ => False
  end.
Proof.
  apply overall_score_antitone.
  - vm_compute. repeat constructor; discriminate.
  - intros k Hk; simpl in Hk; repeat destruct Hk as [<-|Hk]; try contradiction;
      vm_compute; split; discriminate.
Defined.

Lemma ss_overall_score_bounds_witness :
  exists ev,
    ss_calculate_final_evaluation (ledger_of [(85, "easy"); (40, "medium")]%string)
      "medium" (Some {[ "tab_switch_count" := 3 ]}) = Some ev /\
    (0 <= ss_overall_score ev <= 100)%Q /\ (0 <= technical_avg ev <= 100)%Q.
Proof.
  apply ss_overall_score_bounds.
  - repeat constructor; simpl; discriminate.
  - unfold counts_nonneg. apply map_Forall_singleton. lia.
Defined.

Lemma generate_text_retries_witness :
  generate_text (fun _ => Raises) 3 = (Some fallback_text, retry_trace 0 2) /\
  generate_text (fun j => if Nat.eqb j 0 then Raises else Response (Some " ok "%string)) 3
    = (Some (strip " ok "), retry_trace 0 1).
Proof.
  split.
  - apply (proj1 (proj2 (proj2 generate_text_retries))); [lia|]. intros j Hj. reflexivity.
  - apply (proj2 (proj2 (proj2 generate_text_retries))); [lia | | reflexivity | discriminate].
    intros j Hj. assert (j = 0)%nat as -> by lia. reflexivity.
Defined.

Lemma penalty_estimate_vs_final_witness :
  exists p,
  run_proctor init_proctor
    [Frame ["MULTIPLE PEOPLE DETECTED"]; TabSwitch;
     Frame ["MULTIPLE PEOPLE DETECTED"; "HEAD TURNED"];
     Frame ["MULTIPLE PEOPLE DETECTED"]]%string = Some p /\
  penalty_estimate p < _calculate_proctoring_penalty (collected_stats p).
Proof.
  eexists. split; [reflexivity|].
  apply (penalty_estimate_vs_final
           [Frame ["MULTIPLE PEOPLE DETECTED"]; TabSwitch;
            Frame ["MULTIPLE PEOPLE DETECTED"; "HEAD TURNED"];
            Frame ["MULTIPLE PEOPLE DETECTED"]]%string); reflexivity.
Defined.
